(** * Spelling-Correction: the edit-distance engine and the corrector

    A shallow embedding of [spelling_correction/Levenshtein.py] and
    [spelling_correction/SpellingCorrector.py].

    Modelling conventions.
    - Strings are [string]s of 8-bit characters; [str.lower] folds the
      ASCII letters and [str.isalpha] accepts the non-empty strings of
      ASCII letters.
    - A NumPy array of dtype [uint8] is a list of rows of [Z]; a store
      into a cell keeps the value modulo 256. This is the wrap-around of
      NumPy 1.x, for a sum computed on 8-bit scalars as well as for a
      wider integer cast into the cell; NumPy 2 wraps the sums in the
      same way but raises [OverflowError] for a Python integer outside
      0..255, so that the examples below keep the costs and the lengths
      within 0..255 wherever the wrap-around matters.
    - Python integers (costs, thresholds) are [Z]; loop counters and
      indices are [nat].
    - The collaborators [word_tokenize] (NLTK) and the default
      vocabulary are outside the model: the corrector is built from the
      list of tokens and from a vocabulary given as a list.
    - Probabilities are floating-point numbers in the source; the model
      is parameterised by their type, their comparison and the function
      of frequency and distance that computes them. *)

From Stdlib Require Import ZArith QArith String Ascii List Lia Bool.
From stdpp Require Import base list strings.

Close Scope Q_scope.
Local Open Scope Z_scope.

(** ** NumPy [uint8] matrices *)

Module Matrix.

Abbreviation matrix := (list (list Z)).

(** The value kept by an 8-bit unsigned cell. *)
Definition uint8 (v : Z) : Z := v mod 256.

(** [np.zeros(shape=(rows, cols), dtype=np.uint8)] *)
Definition zeros (rows cols : nat) : matrix := replicate rows (replicate cols 0).

(** [m[i][j]] *)
Definition mget (m : matrix) (i j : nat) : Z :=
  match m !! i with
  | Some row => default 0 (row !! j)
  | None => 0
  end.

(** [m[i][j] = v]; every store of the program is inside the shape of the
    array (lemma [mset_shape] and the loop bounds), where Python would
    raise otherwise. *)
Definition mset (m : matrix) (i j : nat) (v : Z) : matrix :=
  match m !! i with
  | Some row => <[i := <[j := uint8 v]> row]> m
  | None => m
  end.

Definition shape (m : matrix) (rows cols : nat) : Prop :=
  length m = rows ∧ ∀ i row, m !! i = Some row → length row = cols.

(** A NumPy array of one-character strings (or of any other values) as
    a list of rows: [g[i][j]], with [d] where the model has no cell, and
    [g[i][j] = v]. *)
Definition grid_get {A : Type} (d : A) (g : list (list A)) (i j : nat) : A :=
  match g !! i with
  | Some row => default d (row !! j)
  | None => d
  end.

Definition grid_set {A : Type} (g : list (list A)) (i j : nat) (v : A)
  : list (list A) :=
  match g !! i with
  | Some row => <[i := <[j := v]> row]> g
  | None => g
  end.

Definition grid_shape {A : Type} (g : list (list A)) (rows cols : nat) : Prop :=
  length g = rows ∧ ∀ i row, g !! i = Some row → length row = cols.

End Matrix.

(** ** Levenshtein.py *)

Module Levenshtein.
Import Matrix.

(** [str.lower] on one character. *)
Definition lower_ascii (c : ascii) : ascii :=
  let n := nat_of_ascii c in
  if ((65 <=? n)%nat && (n <=? 90)%nat)%bool then ascii_of_nat (n + 32) else c.

(** [str.lower] *)
Fixpoint lower (s : string) : string :=
  match s with
  | EmptyString => EmptyString
  | String c s' => String (lower_ascii c) (lower s')
  end.

(** The operation tags (the [@property] constants of the class). *)
Definition NO_EDIT : Z := 0.
Definition INSERT : Z := 1.
Definition DELETE : Z := 2.
Definition REPLACE : Z := 3.

(** The attributes of a [levenshtein] object. *)
Record levenshtein := mk_levenshtein {
  source : string;
  target : string;
  M : nat;
  N : nat;
  replace_cost : Z;
  insert_cost : Z;
  delete_cost : Z;
  distance_matrix : matrix;
  backtrace_matrix : matrix
}.

(** [self.distance_matrix[i][j] = v] *)
Definition set_distance (self : levenshtein) (i j : nat) (v : Z) : levenshtein :=
  mk_levenshtein (source self) (target self) (M self) (N self)
    (replace_cost self) (insert_cost self) (delete_cost self)
    (mset (distance_matrix self) i j v) (backtrace_matrix self).

(** [self.backtrace_matrix[i][j] = v] *)
Definition set_backtrace (self : levenshtein) (i j : nat) (v : Z) : levenshtein :=
  mk_levenshtein (source self) (target self) (M self) (N self)
    (replace_cost self) (insert_cost self) (delete_cost self)
    (distance_matrix self) (mset (backtrace_matrix self) i j v).

(** [for x in range(lo, hi): body] with the object threaded through. *)
Definition for_range {S : Type} (lo hi : nat) (body : S → nat → S) (s : S) : S :=
  fold_left body (seq lo (hi - lo)) s.

(** [s[k]] for a string. *)
Definition char_at (s : string) (k : nat) : option ascii := String.get k s.

(** Lines 51-53: the first column. *)
Definition init_column (self : levenshtein) : levenshtein :=
  for_range 0 (M self + 1)
    (λ self i, set_backtrace (set_distance self i 0 (Z.of_nat i)) i 0 DELETE) self.

(** Lines 54-56: the first row. *)
Definition init_row (self : levenshtein) : levenshtein :=
  for_range 0 (N self + 1)
    (λ self j, set_backtrace (set_distance self 0 j (Z.of_nat j)) 0 j INSERT) self.

(** Lines 61-80: the body of the inner loop, for one cell. *)
Definition fill_cell (i : nat) (self : levenshtein) (j : nat) : levenshtein :=
  let D := distance_matrix self in
  if decide (char_at (source self) (i - 1) = char_at (target self) (j - 1)) then
    set_backtrace (set_distance self i j (mget D (i - 1) (j - 1))) i j NO_EDIT
  else
    let minimum :=
      Z.min (Z.min (mget D i (j - 1)) (mget D (i - 1) j)) (mget D (i - 1) (j - 1)) in
    if decide (minimum = mget D i (j - 1)) then
      set_backtrace (set_distance self i j (minimum + insert_cost self)) i j INSERT
    else if decide (minimum = mget D (i - 1) j) then
      set_backtrace (set_distance self i j (minimum + delete_cost self)) i j DELETE
    else
      set_backtrace (set_distance self i j (minimum + replace_cost self)) i j REPLACE.

(** Lines 59-80: the two nested loops. *)
Definition fill (self : levenshtein) : levenshtein :=
  for_range 1 (M self + 1)
    (λ self i, for_range 1 (N self + 1) (fill_cell i) self) self.

Definition build_levenshtein (self : levenshtein) : levenshtein :=
  fill (init_row (init_column self)).

(** [levenshtein.__init__]; the keyword order of the source is
    [(source, target, replace_cost=1, insert_cost=1, delete_cost=1)]. *)
Definition new (source target : string) (replace_cost insert_cost delete_cost : Z)
  : levenshtein :=
  let m := String.length source in
  let n := String.length target in
  build_levenshtein
    (mk_levenshtein (lower source) (lower target) m n
       replace_cost insert_cost delete_cost
       (zeros (m + 1) (n + 1)) (zeros (m + 1) (n + 1))).

Definition get_edit_distance (self : levenshtein) : Z :=
  mget (distance_matrix self) (M self) (N self).

(** One dictionary of the list returned by [operations_history]. A
    character entry is the pair [(index, character)] of the source, or
    [None]. *)
Record operation_record := mk_operation {
  operation : string;
  char_index : nat;
  source_char : option (nat * ascii);
  target_char : option (nat * ascii)
}.

(** One turn of the [while] loop of [operations_history] (lines 138-164)
    on the loop variables [(i, j, operations)]. The result is [None] when
    a subscript [i-1] or [j-1] would be negative or past the end of its
    string: such a turn is outside this model, and [walk_total] shows
    that no turn of a constructed engine is. *)
Definition walk_step (self : levenshtein) (i j : nat) (operations : list operation_record)
  : option (nat * nat * list operation_record) :=
  let current_operation := mget (backtrace_matrix self) i j in
  if decide (current_operation = INSERT) then
    if decide (j = 0)%nat then None else
    c ← char_at (target self) (j - 1);
    Some (i, (j - 1)%nat,
          operations ++ [mk_operation "inserting" j None (Some (j, c))])
  else if decide (current_operation = DELETE) then
    if decide (i = 0)%nat then None else
    c ← char_at (source self) (i - 1);
    Some ((i - 1)%nat, j,
          operations ++ [mk_operation "deleting" i (Some (i, c)) None])
  else
    if decide (i = 0 ∨ j = 0)%nat then None else
    cs ← char_at (source self) (i - 1);
    ct ← char_at (target self) (j - 1);
    if decide (current_operation = REPLACE) then
      Some ((i - 1)%nat, (j - 1)%nat,
            operations ++ [mk_operation "replacing" i (Some (i, cs)) (Some (j, ct))])
    else
      Some ((i - 1)%nat, (j - 1)%nat,
            operations ++ [mk_operation "no_edit" i (Some (i, cs)) (Some (j, ct))]).

(** [while i > 0 or j > 0: ...]: the loop variables [(i, j, operations)]
    at the exit of the loop, or [None] when the fuel runs out before. *)
Fixpoint walk (fuel : nat) (self : levenshtein) (i j : nat)
    (operations : list operation_record)
  : option (nat * nat * list operation_record) :=
  if decide (0 < i ∨ 0 < j)%nat then
    match fuel with
    | O => None
    | S fuel' =>
        match walk_step self i j operations with
        | Some (i', j', operations') => walk fuel' self i' j' operations'
        | None => None
        end
    end
  else Some (i, j, operations).

(** [operations_history]: the walk from [(M, N)], then [operations[::-1]]. *)
Definition operations_history (fuel : nat) (self : levenshtein)
  : option (list operation_record) :=
  match walk fuel self (M self) (N self) [] with
  | Some (_, _, operations) => Some (rev operations)
  | None => None
  end.

(** Lines 106-113: the symbol of one interior cell. *)
Definition ascii_cell (self : levenshtein) (i : nat) (ascii_backtrace : list (list ascii))
    (j : nat) : list (list ascii) :=
  let b := mget (backtrace_matrix self) i j in
  if decide (b = INSERT) then grid_set ascii_backtrace i j "I"%char
  else if decide (b = DELETE) then grid_set ascii_backtrace i j "D"%char
  else if decide (b = REPLACE) then grid_set ascii_backtrace i j "R"%char
  else if decide (b = NO_EDIT) then grid_set ascii_backtrace i j "N"%char
  else ascii_backtrace.

(** [backtrace_to_ascii]; [None] when a subscript of a string is out of
    its range. The backtrace matrix is read, never written. *)
Definition backtrace_to_ascii (self : levenshtein) : option (list (list ascii)) :=
  let ascii_backtrace :=
    replicate (M self + 1) (replicate (N self + 1) "N"%char) in
  let ascii_backtrace :=
    for_range 1 (M self + 1)
      (λ a i, for_range 1 (N self + 1) (ascii_cell self i) a) ascii_backtrace in
  let labelled :=
    for_range 0 (M self + 1)
      (λ state i,
         a ← state;
         if decide (0 < i)%nat then
           c ← char_at (source self) (i - 1); Some (grid_set a i 0 c)
         else Some (grid_set a i 0 "#"%char))
      (Some ascii_backtrace) in
  for_range 0 (N self + 1)
    (λ state j,
       a ← state;
       if decide (0 < j)%nat then
         c ← char_at (target self) (j - 1); Some (grid_set a 0 j c)
       else Some (grid_set a 0 j "#"%char))
    labelled.

End Levenshtein.

(** ** SpellingCorrector.py *)

Module SpellingCorrector.
Import Matrix Levenshtein.

(** [str.isalpha] *)
Definition is_letter (c : ascii) : bool :=
  let n := nat_of_ascii c in
  (((65 <=? n)%nat && (n <=? 90)%nat) || ((97 <=? n)%nat && (n <=? 122)%nat))%bool.

Fixpoint all_letters (s : string) : bool :=
  match s with
  | EmptyString => true
  | String c s' => (is_letter c && all_letters s')%bool
  end.

Definition isalpha (s : string) : bool :=
  match s with
  | EmptyString => false
  | _ => all_letters s
  end.

(** [s.replace(old, new)] for a non-empty [old]: the occurrences are
    taken from the left and do not overlap; [skip] counts the characters
    of a matched occurrence still to pass over. *)
Fixpoint replace_from (old new : string) (skip : nat) (s : string) : string :=
  match s with
  | EmptyString => EmptyString
  | String c s' =>
      match skip with
      | S k => replace_from old new k s'
      | O =>
          if String.prefix old s
          then (new ++ replace_from old new (String.length old - 1) s')%string
          else String c (replace_from old new 0 s')
      end
  end.

(** [s.replace("", new)]: [new] before every character and at the end. *)
Fixpoint replace_empty (new s : string) : string :=
  match s with
  | EmptyString => new
  | String c s' => (new ++ String c (replace_empty new s'))%string
  end.

(** [str.replace] *)
Definition replace (s old new : string) : string :=
  match old with
  | EmptyString => replace_empty new s
  | _ => replace_from old new 0 s
  end.

(** [Counter(vocabulary)[word]] *)
Definition count_occ_str (vocabulary : list string) (word : string) : nat :=
  length (filter (λ w, w = word) vocabulary).

Section Corrector.

(** The floating-point layer of [__compute_probabilities__] is kept
    abstract: [Prob] is the type of the numbers compared by
    [__best_candidate__], [prob_gt p q] is [p > q], [minus_one] is the
    initial [best_probability = -1], and [probability f d] is
    [(f * (1 / (d + 1))) ** 0.5] for the frequency [f] and the distance
    [d]. *)
Variable Prob : Type.
Variable prob_gt : Prob → Prob → bool.
Variable minus_one : Prob.
Variable probability : nat → Z → Prob.

(** One dictionary of [self.misspelled_words]; the key
    ["best_candidates"] is absent ([None]) until [__best_candidate__]
    stores it. *)
Record misspelled_word := mk_misspelled {
  misspelled : string;
  candidates : list string;
  probabilities : list Prob;
  best_candidates : option string
}.

(** The attributes of a [SpellCorrector]; [string_] is the attribute
    [self.string] once tokenized. *)
Record SpellCorrector := mk_corrector {
  string_ : list string;
  vocabulary : list string;
  n_edit : Z;
  misspelled_words : list misspelled_word
}.

(** [__find_misspelled__], from the tokens [word_tokenize] returned. *)
Definition find_misspelled (tokens vocabulary : list string) (n_edit : Z)
  : SpellCorrector :=
  let string_ := map lower tokens in
  mk_corrector string_ vocabulary n_edit
    (fold_left
       (λ acc word,
          if isalpha word then
            if decide (word ∈ vocabulary) then acc
            else acc ++ [mk_misspelled word [] [] None]
          else acc)
       string_ []).

(** Lines 131-133: the scan of the vocabulary for one entry. *)
Definition scan_vocabulary (vocabulary : list string) (n_edit : Z)
    (entry : misspelled_word) : misspelled_word :=
  fold_left
    (λ entry word,
       if decide (get_edit_distance (new (misspelled entry) word 2 1 1) ≤ n_edit)
       then mk_misspelled (misspelled entry) (candidates entry ++ [word])
              (probabilities entry) (best_candidates entry)
       else entry)
    vocabulary entry.

(** [__find_candidates__] *)
Definition find_candidates (self : SpellCorrector) : SpellCorrector :=
  mk_corrector (string_ self) (vocabulary self) (n_edit self)
    (map (scan_vocabulary (vocabulary self) (n_edit self)) (misspelled_words self)).

(** Lines 112-123: the probabilities of one entry. *)
Definition entry_probabilities (vocabulary : list string) (n_edit : Z)
    (entry : misspelled_word) : misspelled_word :=
  fold_left
    (λ entry candidate,
       let d := get_edit_distance (new (misspelled entry) candidate n_edit 1 1) in
       let candidate_frequency := count_occ_str vocabulary candidate in
       mk_misspelled (misspelled entry) (candidates entry)
         (probabilities entry ++ [probability candidate_frequency d])
         (best_candidates entry))
    (candidates entry)
    (mk_misspelled (misspelled entry) (candidates entry) [] (best_candidates entry)).

(** [__compute_probabilities__] *)
Definition compute_probabilities (self : SpellCorrector) : SpellCorrector :=
  mk_corrector (string_ self) (vocabulary self) (n_edit self)
    (map (entry_probabilities (vocabulary self) (n_edit self)) (misspelled_words self)).

(** Lines 90-97: the loop over [zip(candidates, probabilities)], on the
    pair [(best_probability, best_candidate)]. *)
Definition select_best (candidates : list string) (probabilities : list Prob)
  : Prob * string :=
  fold_left
    (λ best cp,
       if prob_gt (snd cp) (fst best) then (snd cp, fst cp) else best)
    (combine candidates probabilities)
    (minus_one, EmptyString).

(** [__best_candidate__] *)
Definition best_candidate (self : SpellCorrector) : SpellCorrector :=
  mk_corrector (string_ self) (vocabulary self) (n_edit self)
    (map
       (λ entry,
          mk_misspelled (misspelled entry) (candidates entry) (probabilities entry)
            (Some (snd (select_best (candidates entry) (probabilities entry)))))
       (misspelled_words self)).

(** [SpellCorrector.__init__] with a vocabulary supplied. *)
Definition new_corrector (tokens vocabulary : list string) (n_edit : Z)
  : SpellCorrector :=
  best_candidate
    (compute_probabilities
       (find_candidates (find_misspelled tokens vocabulary n_edit))).

(** [retrive_corrected]; [None] is the [KeyError] of a dictionary without
    the key ["best_candidates"]. *)
Definition retrive_corrected (self : SpellCorrector) : option string :=
  fold_left
    (λ corrected_string misspelled_word,
       s ← corrected_string;
       best ← best_candidates misspelled_word;
       Some (replace s (misspelled misspelled_word) best))
    (misspelled_words self)
    (Some (String.concat " " (string_ self))).

End Corrector.

Arguments mk_misspelled {Prob} _ _ _ _.
Arguments misspelled {Prob} _.
Arguments candidates {Prob} _.
Arguments probabilities {Prob} _.
Arguments best_candidates {Prob} _.
Arguments mk_corrector {Prob} _ _ _ _.
Arguments string_ {Prob} _.
Arguments vocabulary {Prob} _.
Arguments n_edit {Prob} _.
Arguments misspelled_words {Prob} _.
Arguments find_misspelled {Prob} _ _ _.
Arguments scan_vocabulary {Prob} _ _ _.
Arguments find_candidates {Prob} _.
Arguments entry_probabilities {Prob} _ _ _ _.
Arguments compute_probabilities {Prob} _ _.
Arguments select_best {Prob} _ _ _ _.
Arguments best_candidate {Prob} _ _ _.
Arguments new_corrector {Prob} _ _ _ _ _ _.
Arguments retrive_corrected {Prob} _.

End SpellingCorrector.

(** * Reference definitions

    The functions and relations the properties are stated with. *)

Module Reference.
Import Matrix Levenshtein SpellingCorrector.

Section Recurrence.

Variables (src tgt : string) (rc ic dc : Z).

(** The pair (distance, tag) the loops of [build_levenshtein] leave in
    cell [(i, j)], as a recursive function of the cell. *)
Fixpoint cell (i : nat) : nat → Z * Z :=
  match i with
  | O => λ j, (uint8 (Z.of_nat j), INSERT)
  | S i' =>
      fix row (j : nat) : Z * Z :=
        match j with
        | O => (uint8 (Z.of_nat (S i')), DELETE)
        | S j' =>
            if decide (char_at src i' = char_at tgt j') then
              (fst (cell i' j'), NO_EDIT)
            else
              let minimum :=
                Z.min (Z.min (fst (row j')) (fst (cell i' (S j')))) (fst (cell i' j')) in
              if decide (minimum = fst (row j')) then (uint8 (minimum + ic), INSERT)
              else if decide (minimum = fst (cell i' (S j')))
                   then (uint8 (minimum + dc), DELETE)
                   else (uint8 (minimum + rc), REPLACE)
        end
  end.

End Recurrence.

(** The distance matrix as section 4.1 of the specification words it,
    every stored value passed through [red] ([uint8] for 8-bit cells, the
    identity for unbounded integers): the first column is
    [i * deleteCost], the first row is [j * insertCost], a matching cell
    copies its diagonal neighbour, and a mismatch takes the minimum of the
    three neighbours and adds the cost of the first of Insert, Delete,
    Replace whose neighbour is that minimum. *)
Fixpoint spec_distance (red : Z → Z) (src tgt : string) (rc ic dc : Z) (i : nat)
  : nat → Z :=
  match i with
  | O => λ j, red (Z.of_nat j * ic)
  | S i' =>
      fix row (j : nat) : Z :=
        match j with
        | O => red (Z.of_nat (S i') * dc)
        | S j' =>
            if decide (char_at src i' = char_at tgt j') then
              spec_distance red src tgt rc ic dc i' j'
            else
              let minimum :=
                Z.min (Z.min (row j') (spec_distance red src tgt rc ic dc i' (S j')))
                      (spec_distance red src tgt rc ic dc i' j') in
              if decide (minimum = row j') then red (minimum + ic)
              else if decide (minimum = spec_distance red src tgt rc ic dc i' (S j'))
                   then red (minimum + dc)
                   else red (minimum + rc)
        end
  end.

(** [s[k:]] *)
Fixpoint string_drop (k : nat) (s : string) : string :=
  match k, s with
  | O, _ => s
  | S k', String _ s' => string_drop k' s'
  | S _, EmptyString => EmptyString
  end.

(** Applying a list of operation records, front first, to a string, with
    [pos] the 1-based position of the next character of the string not
    yet consumed: ['inserting'] puts the target character of the record
    in the output, ['deleting'] drops the next character, ['replacing']
    puts the target character in its place, ['no_edit'] keeps it. A
    record that consumes a character must name it and its position. What
    is left of the string when the records are exhausted is kept. *)
Fixpoint apply_operations (ops : list operation_record) (pos : nat) (s : string)
  : option string :=
  match ops with
  | [] => Some s
  | r :: ops' =>
      if decide (operation r = "inserting") then
        match target_char r with
        | Some (_, c) => String c <$> apply_operations ops' pos s
        | None => None
        end
      else
        match s with
        | EmptyString => None
        | String c s' =>
            if decide (source_char r = Some (pos, c)) then
              if decide (operation r = "deleting") then
                apply_operations ops' (S pos) s'
              else if decide (operation r = "replacing") then
                match target_char r with
                | Some (_, ct) => String ct <$> apply_operations ops' (S pos) s'
                | None => None
                end
              else if decide (operation r = "no_edit") then
                String c <$> apply_operations ops' (S pos) s'
              else None
            else None
        end
  end.

(** The source positions, and the target positions, named by the records
    of a list, in the order of the list. *)
Fixpoint source_indices (ops : list operation_record) : list nat :=
  match ops with
  | [] => []
  | r :: ops' =>
      match source_char r with
      | Some (i, _) => i :: source_indices ops'
      | None => source_indices ops'
      end
  end.

Fixpoint target_indices (ops : list operation_record) : list nat :=
  match ops with
  | [] => []
  | r :: ops' =>
      match target_char r with
      | Some (j, _) => j :: target_indices ops'
      | None => target_indices ops'
      end
  end.

Section Scripts.

Variables (src tgt : string) (m n : nat).

(** [script i j ops]: [ops] is an edit script, in forward order, from the
    cell [(i, j)] to the cell [(m, n)]: it turns [src[i:]] into
    [tgt[j:]]. *)
Inductive script : nat → nat → list operation_record → Prop :=
| script_end : script m n []
| script_insert i j c ops :
    script i (S j) ops → (j < n)%nat → char_at tgt j = Some c →
    script i j (mk_operation "inserting" (S j) None (Some (S j, c)) :: ops)
| script_delete i j c ops :
    script (S i) j ops → (i < m)%nat → char_at src i = Some c →
    script i j (mk_operation "deleting" (S i) (Some (S i, c)) None :: ops)
| script_replace i j cs ct ops :
    script (S i) (S j) ops → (i < m)%nat → (j < n)%nat →
    char_at src i = Some cs → char_at tgt j = Some ct →
    script i j (mk_operation "replacing" (S i) (Some (S i, cs)) (Some (S j, ct)) :: ops)
| script_no_edit i j c ops :
    script (S i) (S j) ops → (i < m)%nat → (j < n)%nat →
    char_at src i = Some c → char_at tgt j = Some c →
    script i j (mk_operation "no_edit" (S i) (Some (S i, c)) (Some (S j, c)) :: ops).

End Scripts.

(** The test of [__find_misspelled__] on one lowercased token. *)
Definition flagged (vocabulary : list string) (word : string) : Prop :=
  isalpha word = true ∧ word ∉ vocabulary.

#[export] Instance flagged_dec vocabulary word : Decision (flagged vocabulary word).
Proof. unfold flagged. apply _. Defined.

(** The test of [__find_candidates__] on one vocabulary word. *)
Definition within (n_edit : Z) (token word : string) : Prop :=
  get_edit_distance (new token word 2 1 1) ≤ n_edit.

#[export] Instance within_dec n_edit token word : Decision (within n_edit token word).
Proof. unfold within. apply _. Defined.

(** An instance of the floating-point layer in exact arithmetic: the
    radicand [f / (d + 1)] of the probability as a rational number, which
    orders the candidates as its square root does. *)
Definition exact_gt (a b : Q) : bool := if Qlt_le_dec b a then true else false.

Definition exact_minus_one : Q := (-1) # 1.

Definition exact_probability (f : nat) (d : Z) : Q := Z.of_nat f # Z.to_pos (d + 1).

(** The cost the engine charges for the operation of a record, and the
    total cost of a list of records. *)
Definition operation_cost (rc ic dc : Z) (r : operation_record) : Z :=
  if decide (operation r = "inserting") then ic
  else if decide (operation r = "deleting") then dc
  else if decide (operation r = "replacing") then rc
  else 0.

Fixpoint history_cost (rc ic dc : Z) (ops : list operation_record) : Z :=
  match ops with
  | [] => 0
  | r :: ops' => operation_cost rc ic dc r + history_cost rc ic dc ops'
  end.

(** The display symbol of an operation tag. *)
Definition tag_symbol (b : Z) : ascii :=
  if decide (b = INSERT) then "I"%char
  else if decide (b = DELETE) then "D"%char
  else if decide (b = REPLACE) then "R"%char
  else "N"%char.

(** A record is well formed: an insertion names a target character only,
    a deletion a source character only, a replacement two different
    characters and a ['no_edit'] twice the same character; its
    [char_index] is the target position for an insertion and the source
    position otherwise. *)
Definition record_consistent (r : operation_record) : Prop :=
  (operation r = "inserting" ∧ source_char r = None ∧
   ∃ j c, target_char r = Some (j, c) ∧ char_index r = j)
  ∨ (operation r = "deleting" ∧ target_char r = None ∧
     ∃ i c, source_char r = Some (i, c) ∧ char_index r = i)
  ∨ (operation r = "replacing" ∧
     ∃ i j cs ct, source_char r = Some (i, cs) ∧ target_char r = Some (j, ct) ∧
                  cs ≠ ct ∧ char_index r = i)
  ∨ (operation r = "no_edit" ∧
     ∃ i j c, source_char r = Some (i, c) ∧ target_char r = Some (j, c) ∧
              char_index r = i).

End Reference.

(** * Properties *)

(** ** Stores and loads of a matrix *)

Module MatrixFacts.
Import Matrix.

Lemma uint8_range v : 0 ≤ uint8 v < 256.
Proof. unfold uint8. apply Z.mod_pos_bound. lia. Qed.

Lemma uint8_small v : 0 ≤ v < 256 → uint8 v = v.
Proof. intros H. unfold uint8. apply Z.mod_small. exact H. Qed.

Lemma uint8_idem v : uint8 (uint8 v) = uint8 v.
Proof. apply uint8_small, uint8_range. Qed.

Lemma shape_zeros rows cols : shape (zeros rows cols) rows cols.
Proof.
  split.
  - unfold zeros. apply length_replicate.
  - intros i row Hrow. unfold zeros in Hrow.
    apply lookup_replicate in Hrow as [-> _]. apply length_replicate.
Qed.

Lemma mset_shape (m : matrix) rows cols i j v :
  shape m rows cols → shape (mset m i j v) rows cols.
Proof.
  intros [Hlen Hrows]. unfold mset.
  destruct (m !! i) as [row|] eqn:Hi; [|by split].
  split.
  - by rewrite length_insert.
  - intros k r Hk.
    destruct (decide (i = k)) as [->|Hne].
    + rewrite list_lookup_insert_eq in Hk by (by eapply lookup_lt_Some).
      injection Hk as <-. rewrite length_insert. by eapply Hrows.
    + rewrite list_lookup_insert_ne in Hk by done. by eapply Hrows.
Qed.

Lemma mget_mset_eq (m : matrix) rows cols i j v :
  shape m rows cols → (i < rows)%nat → (j < cols)%nat →
  mget (mset m i j v) i j = uint8 v.
Proof.
  intros [Hlen Hrows] Hi Hj. unfold mget, mset.
  destruct (lookup_lt_is_Some_2 m i) as [row Hrow]; [lia|].
  rewrite Hrow. rewrite list_lookup_insert_eq by lia.
  rewrite list_lookup_insert_eq; [done|].
  rewrite (Hrows _ _ Hrow). lia.
Qed.

Lemma mget_mset_ne (m : matrix) i j v a b :
  (a ≠ i ∨ b ≠ j) → mget (mset m i j v) a b = mget m a b.
Proof.
  intros Hne. unfold mget, mset.
  destruct (m !! i) as [row|] eqn:Hrow; [|done].
  destruct (decide (i = a)) as [->|Hia].
  - rewrite list_lookup_insert_eq by (by eapply lookup_lt_Some).
    rewrite Hrow. rewrite list_lookup_insert_ne; [done|]. intros ->. by destruct Hne.
  - by rewrite list_lookup_insert_ne.
Qed.

Lemma mget_range_zeros rows cols a b : mget (zeros rows cols) a b = 0.
Proof.
  unfold mget, zeros.
  destruct (replicate rows (replicate cols 0) !! a) as [row|] eqn:Hrow; [|done].
  apply lookup_replicate in Hrow as [-> _].
  destruct (replicate cols 0 !! b) as [x|] eqn:Hx; [|done].
  by apply lookup_replicate in Hx as [-> _].
Qed.

End MatrixFacts.

(** ** The matrices built by [build_levenshtein] *)

Module BuildFacts.
Import Matrix Levenshtein Reference MatrixFacts.

(** Loop rule for [for_range]: an invariant indexed by the counter. *)
Lemma fold_seq_ind {S : Type} (P : nat → S → Prop) (body : S → nat → S) n :
  ∀ lo s,
  P lo s →
  (∀ k s, (lo ≤ k < lo + n)%nat → P k s → P (Datatypes.S k) (body s k)) →
  P (lo + n)%nat (fold_left body (seq lo n) s).
Proof.
  induction n as [|n IH]; intros lo s H0 Hstep; simpl.
  - by replace (lo + 0)%nat with lo by lia.
  - replace (lo + Datatypes.S n)%nat with (Datatypes.S lo + n)%nat by lia.
    apply IH.
    + apply Hstep; [lia | done].
    + intros k s' Hk. apply Hstep. lia.
Qed.

Lemma for_range_ind {S : Type} (P : nat → S → Prop) lo hi (body : S → nat → S) s :
  (lo ≤ hi)%nat →
  P lo s →
  (∀ k s, (lo ≤ k < hi)%nat → P k s → P (Datatypes.S k) (body s k)) →
  P hi (for_range lo hi body s).
Proof.
  intros Hle H0 Hstep. unfold for_range.
  pose proof (fold_seq_ind P body (hi - lo) lo s H0) as H.
  replace (lo + (hi - lo))%nat with hi in H by lia.
  apply H. intros k s' Hk. apply Hstep. lia.
Qed.

Section Recurrence.

Variables (src tgt : string) (rc ic dc : Z).

Local Abbreviation cell := (Reference.cell src tgt rc ic dc).

Lemma cell_row0 j : cell 0 j = (uint8 (Z.of_nat j), INSERT).
Proof. reflexivity. Qed.

Lemma cell_col0 i : cell (S i) 0 = (uint8 (Z.of_nat (S i)), DELETE).
Proof. reflexivity. Qed.

Lemma cell_interior i j :
  cell (S i) (S j) =
    if decide (char_at src i = char_at tgt j) then (fst (cell i j), NO_EDIT)
    else
      let minimum :=
        Z.min (Z.min (fst (cell (S i) j)) (fst (cell i (S j)))) (fst (cell i j)) in
      if decide (minimum = fst (cell (S i) j)) then (uint8 (minimum + ic), INSERT)
      else if decide (minimum = fst (cell i (S j)))
           then (uint8 (minimum + dc), DELETE)
           else (uint8 (minimum + rc), REPLACE).
Proof. reflexivity. Qed.

Lemma cell_fst_range i j : 0 ≤ fst (cell i j) < 256.
Proof.
  revert j. induction i as [|i IH]; intros j.
  - rewrite cell_row0. apply uint8_range.
  - destruct j as [|j].
    + rewrite cell_col0. apply uint8_range.
    + rewrite cell_interior. cbv zeta.
      repeat case_decide; simpl; auto using uint8_range.
Qed.

Lemma cell_snd_range i j : 0 ≤ snd (cell i j) < 256.
Proof.
  destruct i as [|i]; [rewrite cell_row0; simpl; unfold INSERT; lia|].
  destruct j as [|j]; [rewrite cell_col0; simpl; unfold DELETE; lia|].
  rewrite cell_interior. cbv zeta.
  repeat case_decide; simpl; unfold NO_EDIT, INSERT, DELETE, REPLACE; lia.
Qed.

Variables (m n : nat).

(** The engine [self] has the attributes of the section and its cells
    selected by [P] hold the values of [cell]. *)
Record agrees (self : levenshtein) (P : nat → nat → Prop) : Prop := mk_agrees {
  ag_source : source self = src;
  ag_target : target self = tgt;
  ag_M : M self = m;
  ag_N : N self = n;
  ag_rc : replace_cost self = rc;
  ag_ic : insert_cost self = ic;
  ag_dc : delete_cost self = dc;
  ag_shape_D : shape (distance_matrix self) (m + 1) (n + 1);
  ag_shape_B : shape (backtrace_matrix self) (m + 1) (n + 1);
  ag_cells : ∀ a b, (a ≤ m)%nat → (b ≤ n)%nat → P a b →
      mget (distance_matrix self) a b = fst (cell a b) ∧
      mget (backtrace_matrix self) a b = snd (cell a b)
}.

(** Storing the pair of [cell] at [(i, j)] extends the agreement. *)
Lemma agrees_store self (P : nat → nat → Prop) i j v t :
  agrees self P → (i ≤ m)%nat → (j ≤ n)%nat →
  uint8 v = fst (cell i j) → t = snd (cell i j) →
  agrees (set_backtrace (set_distance self i j v) i j t)
         (λ a b, P a b ∨ (a = i ∧ b = j)).
Proof.
  intros [] Hi Hj Hv Ht. split; simpl; try done.
  - by apply mset_shape.
  - by apply mset_shape.
  - intros a b Ha Hb HP.
    destruct (decide (a = i ∧ b = j)) as [[-> ->]|Hne].
    + rewrite (mget_mset_eq _ (m + 1) (n + 1)) by (done || lia).
      rewrite (mget_mset_eq _ (m + 1) (n + 1)) by (done || lia).
      split; [done|]. subst t. apply uint8_small, cell_snd_range.
    + rewrite !mget_mset_ne by (clear -Hne; lia).
      destruct HP as [HP|HP]; [auto | tauto].
Qed.

Lemma agrees_weaken self (P Q : nat → nat → Prop) :
  agrees self P → (∀ a b, (a ≤ m)%nat → (b ≤ n)%nat → Q a b → P a b) → agrees self Q.
Proof. intros [] HPQ. split; auto. Qed.

(** A store into a cell outside [P] keeps the agreement on [P]. *)
Lemma agrees_store_other self (P : nat → nat → Prop) i j v t :
  agrees self P → ¬ P i j →
  agrees (set_backtrace (set_distance self i j v) i j t) P.
Proof.
  intros [] HnP. split; simpl; try done.
  - by apply mset_shape.
  - by apply mset_shape.
  - intros a b Ha Hb HP.
    assert (a ≠ i ∨ b ≠ j) as Hne.
    { destruct (decide (a = i)) as [->|]; [|by left].
      right. intros ->. by apply HnP. }
    rewrite !mget_mset_ne by done. auto.
Qed.

Lemma init_column_agrees self :
  agrees self (λ _ _, False) →
  agrees (init_column self) (λ a b, b = 0 ∧ 1 ≤ a)%nat.
Proof.
  intros Hag. unfold init_column. rewrite (ag_M _ _ Hag).
  eapply agrees_weaken.
  - apply (for_range_ind (λ k s, agrees s (λ a b, b = 0 ∧ 1 ≤ a < k)%nat)).
    + lia.
    + eapply agrees_weaken; [exact Hag|]. intros; cbv beta in *; lia.
    + intros k s Hk Hs. destruct k as [|k].
      * apply agrees_store_other.
        -- eapply agrees_weaken; [exact Hs|]. intros; cbv beta in *; lia.
        -- lia.
      * eapply agrees_weaken.
        -- apply (agrees_store s _ (S k) 0 (Z.of_nat (S k)) DELETE Hs); try lia; done.
        -- simpl. intros; cbv beta in *; lia.
  - simpl. intros; cbv beta in *; lia.
Qed.

Lemma init_row_agrees self :
  agrees self (λ a b, b = 0 ∧ 1 ≤ a)%nat →
  agrees (init_row self) (λ a b, a = 0 ∨ b = 0)%nat.
Proof.
  intros Hag. unfold init_row. rewrite (ag_N _ _ Hag).
  eapply agrees_weaken.
  - apply (for_range_ind
             (λ k s, agrees s (λ a b, (b = 0 ∧ 1 ≤ a) ∨ (a = 0 ∧ b < k))%nat)).
    + lia.
    + eapply agrees_weaken; [exact Hag|]. intros; cbv beta in *; lia.
    + intros k s Hk Hs.
      eapply agrees_weaken.
      * apply (agrees_store s _ 0 k (Z.of_nat k) INSERT Hs); try lia; done.
      * simpl. intros; cbv beta in *; lia.
  - simpl. intros; cbv beta in *; lia.
Qed.

(** One turn of the inner loop. *)
Lemma fill_cell_agrees self i j :
  (1 ≤ i ≤ m)%nat → (1 ≤ j ≤ n)%nat →
  agrees self (λ a b, a = 0 ∨ b = 0 ∨ a < i ∨ (a = i ∧ b < j))%nat →
  agrees (fill_cell i self j)
         (λ a b, a = 0 ∨ b = 0 ∨ a < i ∨ (a = i ∧ b < S j))%nat.
Proof.
  intros Hi Hj Hag.
  destruct i as [|i]; [lia|]. destruct j as [|j]; [lia|].
  pose proof (ag_cells _ _ Hag i j) as [Hd _]; [lia | lia | lia |].
  pose proof (ag_cells _ _ Hag (S i) j) as [Hl _]; [lia | lia | lia |].
  pose proof (ag_cells _ _ Hag i (S j)) as [Hu _]; [lia | lia | lia |].
  unfold fill_cell.
  replace (S i - 1)%nat with i by lia. replace (S j - 1)%nat with j by lia.
  rewrite (ag_source _ _ Hag), (ag_target _ _ Hag), (ag_rc _ _ Hag),
    (ag_ic _ _ Hag), (ag_dc _ _ Hag).
  cbv zeta. rewrite Hd, Hl, Hu.
  pose proof (cell_interior i j) as Hcell. cbv zeta in Hcell.
  repeat case_decide; try contradiction;
    (eapply agrees_weaken;
     [ apply (agrees_store _ _ (S i) (S j) _ _ Hag);
       [ lia | lia
       | rewrite Hcell; simpl; try done; apply uint8_small, cell_fst_range
       | rewrite Hcell; done ]
     | intros; cbv beta in *; lia ]).
Qed.

Lemma fill_agrees self :
  agrees self (λ a b, a = 0 ∨ b = 0)%nat →
  agrees (fill self) (λ _ _, True).
Proof.
  intros Hag. unfold fill. rewrite (ag_M _ _ Hag).
  eapply agrees_weaken.
  - apply (for_range_ind (λ i s, agrees s (λ a b, a = 0 ∨ b = 0 ∨ a < i)%nat)).
    + lia.
    + eapply agrees_weaken; [exact Hag|]. intros; cbv beta in *; lia.
    + intros i s Hi Hs. rewrite (ag_N _ _ Hs).
      eapply agrees_weaken.
      * apply (for_range_ind
                 (λ j s, agrees s (λ a b, a = 0 ∨ b = 0 ∨ a < i ∨ (a = i ∧ b < j))%nat)).
        -- lia.
        -- eapply agrees_weaken; [exact Hs|]. intros; cbv beta in *; lia.
        -- intros j s' Hj Hs'. apply fill_cell_agrees; [lia | lia | done].
      * simpl. intros; cbv beta in *; lia.
  - simpl. intros; cbv beta in *; lia.
Qed.

Lemma build_levenshtein_agrees self :
  agrees self (λ _ _, False) → agrees (build_levenshtein self) (λ _ _, True).
Proof.
  intros Hag. unfold build_levenshtein.
  by apply fill_agrees, init_row_agrees, init_column_agrees.
Qed.

End Recurrence.

(** [str.lower] keeps the length. *)
Lemma length_lower s : String.length (lower s) = String.length s.
Proof. induction s as [|c s IH]; simpl; [done | by rewrite IH]. Qed.

(** The engine [levenshtein(source, target, ...)] holds in every cell the
    value of [cell] on the lowercased strings. *)
Lemma new_agrees s t rc ic dc :
  agrees (lower s) (lower t) rc ic dc (String.length s) (String.length t)
    (new s t rc ic dc) (λ _ _, True).
Proof.
  unfold new. apply build_levenshtein_agrees.
  split; simpl; try done; apply shape_zeros.
Qed.

End BuildFacts.

(** ** The constructed engine *)

Module EngineFacts.
Import Matrix Levenshtein Reference MatrixFacts BuildFacts.

Section Engine.

Variables (s t : string) (rc ic dc : Z).

Let self := new s t rc ic dc.

Lemma new_source : source self = lower s.
Proof. apply (ag_source _ _ _ _ _ _ _ _ _ (new_agrees s t rc ic dc)). Qed.

Lemma new_target : target self = lower t.
Proof. apply (ag_target _ _ _ _ _ _ _ _ _ (new_agrees s t rc ic dc)). Qed.

Lemma new_M : M self = String.length s.
Proof. apply (ag_M _ _ _ _ _ _ _ _ _ (new_agrees s t rc ic dc)). Qed.

Lemma new_N : N self = String.length t.
Proof. apply (ag_N _ _ _ _ _ _ _ _ _ (new_agrees s t rc ic dc)). Qed.

Lemma new_insert_cost : insert_cost self = ic.
Proof. apply (ag_ic _ _ _ _ _ _ _ _ _ (new_agrees s t rc ic dc)). Qed.

Lemma new_delete_cost : delete_cost self = dc.
Proof. apply (ag_dc _ _ _ _ _ _ _ _ _ (new_agrees s t rc ic dc)). Qed.

Lemma new_replace_cost : replace_cost self = rc.
Proof. apply (ag_rc _ _ _ _ _ _ _ _ _ (new_agrees s t rc ic dc)). Qed.

Lemma new_distance i j :
  (i ≤ String.length s)%nat → (j ≤ String.length t)%nat →
  mget (distance_matrix self) i j = fst (cell (lower s) (lower t) rc ic dc i j).
Proof.
  intros Hi Hj.
  by apply (ag_cells _ _ _ _ _ _ _ _ _ (new_agrees s t rc ic dc) i j Hi Hj).
Qed.

Lemma new_backtrace i j :
  (i ≤ String.length s)%nat → (j ≤ String.length t)%nat →
  mget (backtrace_matrix self) i j = snd (cell (lower s) (lower t) rc ic dc i j).
Proof.
  intros Hi Hj.
  by apply (ag_cells _ _ _ _ _ _ _ _ _ (new_agrees s t rc ic dc) i j Hi Hj).
Qed.

(** The first column and the first row hold the index itself, in eight
    bits, whatever the costs are. *)
Lemma new_first_column i :
  (i ≤ String.length s)%nat → mget (distance_matrix self) i 0 = uint8 (Z.of_nat i).
Proof. intros Hi. rewrite new_distance by (done || lia). by destruct i. Qed.

Lemma new_first_row j :
  (j ≤ String.length t)%nat → mget (distance_matrix self) 0 j = uint8 (Z.of_nat j).
Proof. intros Hj. rewrite new_distance by (done || lia). done. Qed.

Lemma new_distance_range i j :
  (i ≤ String.length s)%nat → (j ≤ String.length t)%nat →
  0 ≤ mget (distance_matrix self) i j < 256.
Proof. intros Hi Hj. rewrite new_distance by done. apply cell_fst_range. Qed.

(** The rule of an interior cell, read on the matrices themselves. *)
Lemma new_interior i j :
  (1 ≤ i ≤ String.length s)%nat → (1 ≤ j ≤ String.length t)%nat →
  let D := distance_matrix self in
  let B := backtrace_matrix self in
  let minimum :=
    Z.min (Z.min (mget D i (j - 1)) (mget D (i - 1) j)) (mget D (i - 1) (j - 1)) in
  (mget D i j, mget B i j) =
    if decide (char_at (lower s) (i - 1) = char_at (lower t) (j - 1))
    then (mget D (i - 1) (j - 1), NO_EDIT)
    else if decide (minimum = mget D i (j - 1)) then (uint8 (minimum + ic), INSERT)
    else if decide (minimum = mget D (i - 1) j) then (uint8 (minimum + dc), DELETE)
    else (uint8 (minimum + rc), REPLACE).
Proof.
  intros Hi Hj. cbv zeta.
  destruct i as [|i]; [lia|]. destruct j as [|j]; [lia|].
  replace (S i - 1)%nat with i by lia. replace (S j - 1)%nat with j by lia.
  rewrite !new_distance, new_backtrace by lia.
  rewrite <- surjective_pairing. apply cell_interior.
Qed.

End Engine.

End EngineFacts.

(** ** The distance matrix against the recurrence of the specification *)

Module DistanceClaims.
Import Matrix Levenshtein Reference MatrixFacts BuildFacts EngineFacts.

(** With unit insertion and deletion costs the cells of the engine are
    those of section 4.1 reduced modulo 256 at each store. *)
Lemma cell_spec_distance_unit src tgt rc i j :
  fst (cell src tgt rc 1 1 i j) = spec_distance uint8 src tgt rc 1 1 i j.
Proof.
  revert j. induction i as [|i IH]; intros j.
  - simpl. by rewrite Z.mul_1_r.
  - induction j as [|j IHj].
    + simpl. f_equal. lia.
    + rewrite cell_interior. cbv zeta.
      change (spec_distance uint8 src tgt rc 1 1 (S i) (S j)) with
        (if decide (char_at src i = char_at tgt j) then
           spec_distance uint8 src tgt rc 1 1 i j
         else
           let minimum :=
             Z.min (Z.min (spec_distance uint8 src tgt rc 1 1 (S i) j)
                          (spec_distance uint8 src tgt rc 1 1 i (S j)))
                   (spec_distance uint8 src tgt rc 1 1 i j) in
           if decide (minimum = spec_distance uint8 src tgt rc 1 1 (S i) j)
           then uint8 (minimum + 1)
           else if decide (minimum = spec_distance uint8 src tgt rc 1 1 i (S j))
                then uint8 (minimum + 1)
                else uint8 (minimum + rc)).
      cbv zeta. rewrite <- !IH, <- IHj.
      repeat case_decide; done.
Qed.

Lemma new_spec_distance_unit s t rc i j :
  (i ≤ String.length s)%nat → (j ≤ String.length t)%nat →
  mget (distance_matrix (new s t rc 1 1)) i j
  = spec_distance uint8 (lower s) (lower t) rc 1 1 i j.
Proof.
  intros Hi Hj. rewrite new_distance by done. apply cell_spec_distance_unit.
Qed.

(** An engine whose unbounded distance is 256 returns 0. *)
Lemma get_edit_distance_wraps :
  spec_distance id "a" "cd" 255 1 1 1 2 = 256 ∧
  get_edit_distance (new "a" "cd" 255 1 1) = 0.
Proof. split; vm_compute; reflexivity. Qed.

(** With three equal costs the minimum taken before the cost is added is
    the minimum of the three candidate costs: the recurrence of the
    specification holds at every interior cell, modulo 256. *)
Lemma interior_recurrence_equal_costs s t c (i j : nat) :
  (1 ≤ i ≤ String.length s)%nat → (1 ≤ j ≤ String.length t)%nat →
  let D := distance_matrix (new s t c c c) in
  mget D i j =
    if decide (char_at (lower s) (i - 1) = char_at (lower t) (j - 1))
    then mget D (i - 1) (j - 1)
    else uint8 (Z.min (Z.min (mget D i (j - 1) + c) (mget D (i - 1) j + c))
                      (mget D (i - 1) (j - 1) + c)).
Proof.
  intros Hi Hj. cbv zeta.
  pose proof (new_interior s t c c c i j Hi Hj) as H. cbv zeta in H.
  apply (f_equal fst) in H. simpl in H. rewrite H.
  rewrite !Z.add_min_distr_r.
  repeat case_decide; reflexivity.
Qed.

(** C2 (defect of the code): the first column and the first row are
    initialised with the bare index, not with the index times the
    deletion or insertion cost. With a deletion cost of 2 the cell
    [D[1][0]] of the engine for ["a"] and the empty string is 1 and the
    distance returned is 1, where [1 * deleteCost] is 2; with an insertion
    cost of 2 the distance from the empty string to ["a"] is 1 as well. *)
Theorem C2_base_cases_ignore_costs :
  let self := new "a" "" 1 1 2 in
  let self' := new "" "a" 1 2 1 in
  mget (distance_matrix self) 1 0 = 1 ∧
  get_edit_distance self = 1 ∧
  Z.of_nat 1 * delete_cost self = 2 ∧
  mget (distance_matrix self') 0 1 = 1 ∧
  get_edit_distance self' = 1 ∧
  Z.of_nat 1 * insert_cost self' = 2.
Proof. vm_compute. repeat split; reflexivity. Qed.

(** C3 (defect of the code): at a mismatch the minimum is taken over the
    neighbours before the costs are added. For ["a"] and ["b"] with a
    replacement cost of 3 the cell [D[1][1]] is 3, where
    [min(D[1][0] + insertCost, D[0][1] + deleteCost, D[0][0] + replaceCost)]
    is 2. *)
Theorem C3_minimum_taken_before_costs :
  let self := new "a" "b" 3 1 1 in
  let D := distance_matrix self in
  char_at (source self) 0 ≠ char_at (target self) 0 ∧
  mget D 1 1 = 3 ∧
  get_edit_distance self = 3 ∧
  Z.min (Z.min (mget D 1 0 + insert_cost self) (mget D 0 1 + delete_cost self))
        (mget D 0 0 + replace_cost self) = 2.
Proof. vm_compute. repeat split; try reflexivity. intros H; discriminate H. Qed.

(** C7 (defect of the code): the cells are not those of the algorithm of
    section 4.1 reduced modulo 256 when the deletion cost is not 1: for
    ["a"] and the empty string with a deletion cost of 2 the engine holds
    1 in [D[1][0]] and returns 1, the algorithm of section 4.1 gives 2. *)
Theorem C7_cells_differ_from_section_4_1 :
  let self := new "a" "" 1 1 2 in
  mget (distance_matrix self) 1 0 = 1 ∧
  get_edit_distance self = 1 ∧
  spec_distance uint8 (source self) (target self)
    (replace_cost self) (insert_cost self) (delete_cost self) 1 0 = 2.
Proof. vm_compute. repeat split; reflexivity. Qed.

(** C4, the claim as stated fails: for ["a"] and ["bc"] with an insertion
    cost of 255 the cell [(1, 2)] is a mismatch whose minimum 1 is the
    Insert neighbour [D[1][1]], and [D[1][2]] is 0, not [1 + 255]. *)
Lemma C4_counterexample :
  let self := new "a" "bc" 1 255 1 in
  let D := distance_matrix self in
  let minimum := Z.min (Z.min (mget D 1 1) (mget D 0 2)) (mget D 0 1) in
  char_at (source self) 0 ≠ char_at (target self) 1 ∧
  minimum = mget D 1 1 ∧
  mget D 1 2 ≠ minimum + insert_cost self.
Proof. vm_compute. repeat split; intros H; discriminate H. Qed.

(** C4, amended: at every interior mismatch cell of a constructed engine,
    with [minimum] the least of the three neighbour values, the first of
    Insert ([D[i][j-1]]), Delete ([D[i-1][j]]), Replace whose neighbour is
    [minimum] is applied: [D[i][j]] is [minimum] plus the cost of that
    operation reduced modulo 256 (the cell has 8 bits), and [B[i][j]] is
    its tag. *)
Theorem C4_mismatch_rule s t rc ic dc (i j : nat) :
  (1 ≤ i ≤ String.length s)%nat → (1 ≤ j ≤ String.length t)%nat →
  let self := new s t rc ic dc in
  let D := distance_matrix self in
  let B := backtrace_matrix self in
  let minimum :=
    Z.min (Z.min (mget D i (j - 1)) (mget D (i - 1) j)) (mget D (i - 1) (j - 1)) in
  char_at (source self) (i - 1) ≠ char_at (target self) (j - 1) →
  (mget D i j, mget B i j) =
    if decide (minimum = mget D i (j - 1))
    then ((minimum + insert_cost self) mod 256, INSERT)
    else if decide (minimum = mget D (i - 1) j)
    then ((minimum + delete_cost self) mod 256, DELETE)
    else ((minimum + replace_cost self) mod 256, REPLACE).
Proof.
  intros Hi Hj. cbv zeta.
  rewrite new_source, new_target, new_insert_cost, new_delete_cost, new_replace_cost.
  intros Hne.
  pose proof (new_interior s t rc ic dc i j Hi Hj) as H. cbv zeta in H.
  rewrite H. destruct (decide (char_at (lower s) (i - 1) = char_at (lower t) (j - 1)));
    [contradiction | reflexivity].
Qed.

Lemma C4_mismatch_rule_witness :
  let self := new "a" "bc" 1 255 1 in
  let D := distance_matrix self in
  let B := backtrace_matrix self in
  let minimum := Z.min (Z.min (mget D 1 (2 - 1)) (mget D (1 - 1) 2))
                       (mget D (1 - 1) (2 - 1)) in
  (mget D 1 2, mget B 1 2) =
    if decide (minimum = mget D 1 (2 - 1))
    then ((minimum + insert_cost self) mod 256, INSERT)
    else if decide (minimum = mget D (1 - 1) 2)
    then ((minimum + delete_cost self) mod 256, DELETE)
    else ((minimum + replace_cost self) mod 256, REPLACE).
Proof.
  apply (C4_mismatch_rule "a" "bc" 1 255 1 1 2).
  - simpl. lia.
  - simpl. lia.
  - vm_compute. intros H. discriminate H.
Defined.

End DistanceClaims.

(** ** The operation history *)

Module HistoryFacts.
Import Matrix Levenshtein Reference MatrixFacts BuildFacts EngineFacts.

Section Scripts.

Variables (src tgt : string) (m n : nat).

Local Abbreviation script := (Reference.script src tgt m n).

Lemma script_bounds i j ops : script i j ops → (i ≤ m ∧ j ≤ n)%nat.
Proof. induction 1; lia. Qed.

Lemma script_length i j ops :
  script i j ops → (length ops + i + j ≤ m + n)%nat.
Proof. induction 1; simpl; lia. Qed.

Lemma script_source_indices i j ops :
  script i j ops → source_indices ops = seq (S i) (m - i).
Proof.
  induction 1 as [|i j c ops H IH|i j c ops H IH|i j cs ct ops H IH|i j c ops H IH];
    simpl.
  - by replace (m - m)%nat with 0%nat by lia.
  - exact IH.
  - rewrite IH. by replace (m - i)%nat with (S (m - S i)) by lia.
  - rewrite IH. by replace (m - i)%nat with (S (m - S i)) by lia.
  - rewrite IH. by replace (m - i)%nat with (S (m - S i)) by lia.
Qed.

Lemma script_target_indices i j ops :
  script i j ops → target_indices ops = seq (S j) (n - j).
Proof.
  induction 1 as [|i j c ops H IH|i j c ops H IH|i j cs ct ops H IH|i j c ops H IH];
    simpl.
  - by replace (n - n)%nat with 0%nat by lia.
  - rewrite IH. by replace (n - j)%nat with (S (n - S j)) by lia.
  - exact IH.
  - rewrite IH. by replace (n - j)%nat with (S (n - S j)) by lia.
  - rewrite IH. by replace (n - j)%nat with (S (n - S j)) by lia.
Qed.

End Scripts.

Lemma string_drop_length s : string_drop (String.length s) s = EmptyString.
Proof. induction s as [|c s IH]; simpl; done. Qed.

Lemma string_drop_char_at s k c :
  char_at s k = Some c → string_drop k s = String c (string_drop (S k) s).
Proof.
  unfold char_at. revert k. induction s as [|c' s IH]; intros k H.
  - destruct k; discriminate H.
  - destruct k as [|k]; simpl in *.
    + injection H as ->. by destruct s.
    + rewrite (IH k H). by destruct s.
Qed.

Lemma char_at_lt s k : (k < String.length s)%nat → ∃ c, char_at s k = Some c.
Proof.
  unfold char_at. revert k. induction s as [|c s IH]; intros k Hk; simpl in Hk.
  - lia.
  - destruct k as [|k]; simpl; [eauto|]. apply IH. lia.
Qed.

(** A script from [(i, j)] turns [src[i:]] into [tgt[j:]]. *)
Lemma script_apply src tgt i j ops :
  script src tgt (String.length src) (String.length tgt) i j ops →
  apply_operations ops (S i) (string_drop i src) = Some (string_drop j tgt).
Proof.
  induction 1 as [|i j c ops H IH Hj Hc|i j c ops H IH Hi Hc
                  |i j cs ct ops H IH Hi Hj Hcs Hct|i j c ops H IH Hi Hj Hcs Hct].
  - by rewrite !string_drop_length.
  - simpl. rewrite IH. simpl. by rewrite (string_drop_char_at _ _ _ Hc).
  - simpl. rewrite (string_drop_char_at _ _ _ Hc).
    rewrite decide_True by done. exact IH.
  - simpl. rewrite (string_drop_char_at _ _ _ Hcs).
    rewrite decide_True by done. rewrite IH. simpl.
    by rewrite (string_drop_char_at _ _ _ Hct).
  - simpl. rewrite (string_drop_char_at _ _ _ Hcs).
    rewrite decide_True by done. rewrite IH. simpl.
    by rewrite (string_drop_char_at _ _ _ Hct).
Qed.

(** The result of the loop does not depend on the fuel that suffices. *)
Lemma walk_fuel_irrelevant f1 :
  ∀ f2 self i j acc r1 r2,
  walk f1 self i j acc = Some r1 → walk f2 self i j acc = Some r2 → r1 = r2.
Proof.
  induction f1 as [|f1 IH]; intros f2 self i j acc r1 r2 H1 H2.
  - simpl in H1. destruct f2; simpl in H2;
      destruct (decide (0 < i ∨ 0 < j)%nat); congruence.
  - simpl in H1. destruct f2; simpl in H2;
      destruct (decide (0 < i ∨ 0 < j)%nat); try congruence.
    destruct (walk_step self i j acc) as [[[i' j'] acc']|]; [|discriminate].
    by eapply IH.
Qed.

(** One more turn of the loop while a loop variable is positive. *)
Lemma walk_turn fuel self i j acc :
  (0 < i ∨ 0 < j)%nat →
  walk (S fuel) self i j acc =
    match walk_step self i j acc with
    | Some (i', j', acc') => walk fuel self i' j' acc'
    | None => None
    end.
Proof.
  intros Hpos. simpl.
  destruct (decide (0 < i ∨ 0 < j)%nat); [reflexivity | contradiction].
Qed.

Section Walk.

Variables (s t : string) (rc ic dc : Z).

Let self := new s t rc ic dc.
Let src := lower s.
Let tgt := lower t.
Let m := String.length s.
Let n := String.length t.

(** Case split on the test that selects the tag of a cell. *)
Ltac split_tag :=
  match goal with
  | |- context [snd (if ?d then _ else _)] => destruct d; simpl snd
  end.

Lemma tag_distinct :
  INSERT ≠ DELETE ∧ INSERT ≠ REPLACE ∧ INSERT ≠ NO_EDIT ∧
  DELETE ≠ REPLACE ∧ DELETE ≠ NO_EDIT ∧ REPLACE ≠ NO_EDIT.
Proof. unfold INSERT, DELETE, REPLACE, NO_EDIT. lia. Qed.

(** One turn of the loop prepends one record to the script read so far
    and moves towards the origin. *)
Lemma walk_step_script i j acc :
  (0 < i ∨ 0 < j)%nat →
  script src tgt m n i j (rev acc) →
  ∃ i' j' r,
    walk_step self i j acc = Some (i', j', acc ++ [r]) ∧
    (i' + j' < i + j)%nat ∧
    script src tgt m n i' j' (rev (acc ++ [r])).
Proof.
  intros Hpos Hscript.
  destruct (script_bounds _ _ _ _ _ _ _ Hscript) as [Hi Hj].
  destruct tag_distinct as (Hid & Hir & Hin & Hdr & Hdn & Hrn).
  assert (∀ k, (k < m)%nat → ∃ c, char_at (lower s) k = Some c) as Hsrc.
  { intros k Hk. apply char_at_lt. by rewrite length_lower. }
  assert (∀ k, (k < n)%nat → ∃ c, char_at (lower t) k = Some c) as Htgt.
  { intros k Hk. apply char_at_lt. by rewrite length_lower. }
  unfold walk_step. unfold self, src, tgt, m, n in *.
  rewrite new_backtrace by done. rewrite new_source, new_target.
  destruct i as [|i], j as [|j].
  - lia.
  - rewrite cell_row0. simpl snd.
    rewrite decide_True by done. rewrite decide_False by lia.
    replace (S j - 1)%nat with j by lia.
    destruct (Htgt j) as [c Hc]; [lia|].
    rewrite Hc. simpl. eexists _, _, _. split; [reflexivity|].
    split; [lia|]. rewrite rev_unit. apply script_insert; [done | lia | done].
  - rewrite cell_col0. simpl snd.
    rewrite decide_False by (intros H; by symmetry in H).
    rewrite decide_True by done. rewrite decide_False by lia.
    replace (S i - 1)%nat with i by lia.
    destruct (Hsrc i) as [c Hc]; [lia|].
    rewrite Hc. simpl. eexists _, _, _. split; [reflexivity|].
    split; [lia|]. rewrite rev_unit. apply script_delete; [done | lia | done].
  - replace (S i - 1)%nat with i by lia. replace (S j - 1)%nat with j by lia.
    destruct (Hsrc i) as [cs Hcs]; [lia|].
    destruct (Htgt j) as [ct Hct]; [lia|].
    rewrite cell_interior. cbv zeta.
    destruct (decide (char_at (lower s) i = char_at (lower t) j)) as [Heq|Hne];
      simpl snd.
    + rewrite decide_False by (intros H; by symmetry in H).
      rewrite decide_False by (intros H; by symmetry in H).
      rewrite decide_False by lia.
      rewrite Hcs, Hct. simpl.
      eexists _, _, _. split; [reflexivity|]. split; [lia|].
      rewrite rev_unit. rewrite Hcs, Hct in Heq. injection Heq as ->.
      apply script_no_edit; (done || lia).
    + split_tag; [|split_tag].
      * rewrite decide_True by done. rewrite decide_False by lia.
        rewrite Hct. simpl. eexists _, _, _. split; [reflexivity|].
        split; [lia|]. rewrite rev_unit. apply script_insert; [done | lia | done].
      * rewrite decide_False by (intros H'; by symmetry in H').
        rewrite decide_True by done. rewrite decide_False by lia.
        rewrite Hcs. simpl. eexists _, _, _. split; [reflexivity|].
        split; [lia|]. rewrite rev_unit. apply script_delete; [done | lia | done].
      * rewrite decide_False by (intros H'; by symmetry in H').
        rewrite decide_False by (intros H'; by symmetry in H').
        rewrite decide_False by lia.
        rewrite Hcs, Hct. simpl.
        eexists _, _, _. split; [reflexivity|]. split; [lia|].
        rewrite rev_unit. apply script_replace; (done || lia).
Qed.

(** With fuel for [i + j] turns the loop exits, at the origin, having
    read a script from the origin. *)
Lemma walk_total fuel :
  ∀ i j acc,
  (i + j ≤ fuel)%nat →
  script src tgt m n i j (rev acc) →
  ∃ acc',
    walk fuel self i j acc = Some (0%nat, 0%nat, acc') ∧
    script src tgt m n 0 0 (rev acc').
Proof.
  induction fuel as [|fuel IH]; intros i j acc Hfuel Hscript.
  - assert (i = 0 ∧ j = 0)%nat as [-> ->] by lia. simpl. eauto.
  - simpl. destruct (decide (0 < i ∨ 0 < j)%nat) as [Hpos|Hzero].
    + destruct (walk_step_script i j acc Hpos Hscript) as (i' & j' & r & -> & Hlt & Hs').
      apply IH; [lia | done].
    + assert (i = 0 ∧ j = 0)%nat as [-> ->] by lia. eauto.
Qed.

(** [operations_history] returns, for any fuel of at least [M + N], the
    same script from the origin to [(M, N)]. *)
Lemma operations_history_script :
  ∃ ops,
    script src tgt m n 0 0 ops ∧
    ∀ fuel, (m + n ≤ fuel)%nat →
      ∃ acc, walk fuel self (M self) (N self) [] = Some (0%nat, 0%nat, acc) ∧
             rev acc = ops ∧
             operations_history fuel self = Some ops.
Proof.
  destruct (walk_total (m + n) m n []) as (acc0 & Hw0 & Hs0);
    [lia | apply script_end |].
  exists (rev acc0). split; [done|].
  intros fuel Hfuel.
  destruct (walk_total fuel m n []) as (acc & Hw & Hs);
    [lia | apply script_end |].
  pose proof (walk_fuel_irrelevant _ _ _ _ _ _ _ _ Hw Hw0) as Heq.
  injection Heq as ->.
  assert (M self = m ∧ N self = n) as [HM HN].
  { unfold self, m, n. by rewrite new_M, new_N. }
  exists acc0. unfold operations_history. rewrite HM, HN, Hw. done.
Qed.

End Walk.

End HistoryFacts.

Module HistoryClaims.
Import Matrix Levenshtein Reference MatrixFacts BuildFacts EngineFacts HistoryFacts.

(** C5: for every pair of strings and every cost triple, the records
    returned by [operations_history] (with fuel for [M + N] turns of its
    loop), applied in the returned order to the lowercased source,
    rebuild the lowercased target: an ['inserting'] record inserts its
    target character, a ['deleting'] record removes its source character,
    a ['replacing'] record substitutes its target character and a
    ['no_edit'] record keeps the character. *)
Theorem C5_history_round_trip s t rc ic dc fuel :
  (String.length s + String.length t ≤ fuel)%nat →
  ∃ ops,
    operations_history fuel (new s t rc ic dc) = Some ops ∧
    apply_operations ops 1 (lower s) = Some (lower t).
Proof.
  intros Hfuel.
  destruct (operations_history_script s t rc ic dc) as (ops & Hscript & Hops).
  destruct (Hops fuel Hfuel) as (acc & _ & _ & Hhist).
  exists ops. split; [exact Hhist|].
  rewrite <- (length_lower s), <- (length_lower t) in Hscript.
  exact (script_apply _ _ _ _ _ Hscript).
Qed.

Lemma C5_history_round_trip_witness :
  ∃ ops,
    operations_history 16 (new "Elephant" "relevant" 1 1 1) = Some ops ∧
    apply_operations ops 1 (lower "Elephant") = Some (lower "relevant").
Proof. apply (C5_history_round_trip "Elephant" "relevant" 1 1 1 16). simpl. lia. Defined.

(** C8: for every constructed engine, the walk of [operations_history]
    from [(M, N)], given fuel for [M + N] turns, leaves its loop at
    [(0, 0)]; the list returned is the reverse of the list the walk
    appended to, has at most [M + N] records, and is in forward order:
    the source positions it names are [1 .. M] and the target positions
    [1 .. N], each in increasing order. A second call returns the same
    list. *)
Theorem C8_history_terminates s t rc ic dc fuel :
  (String.length s + String.length t ≤ fuel)%nat →
  let self := new s t rc ic dc in
  ∃ operations,
    walk fuel self (M self) (N self) [] = Some (0%nat, 0%nat, operations) ∧
    operations_history fuel self = Some (rev operations) ∧
    (length (rev operations) ≤ M self + N self)%nat ∧
    source_indices (rev operations) = seq 1 (M self) ∧
    target_indices (rev operations) = seq 1 (N self) ∧
    ∀ fuel', (String.length s + String.length t ≤ fuel')%nat →
      operations_history fuel' self = operations_history fuel self.
Proof.
  intros Hfuel self.
  destruct (operations_history_script s t rc ic dc) as (ops & Hscript & Hops).
  destruct (Hops fuel Hfuel) as (acc & Hwalk & Hrev & Hhist).
  subst self. rewrite new_M, new_N in Hwalk. rewrite new_M, new_N.
  exists acc. rewrite Hrev. repeat split.
  - exact Hwalk.
  - exact Hhist.
  - pose proof (script_length _ _ _ _ _ _ _ Hscript). lia.
  - rewrite (script_source_indices _ _ _ _ _ _ _ Hscript). f_equal. lia.
  - rewrite (script_target_indices _ _ _ _ _ _ _ Hscript). f_equal. lia.
  - intros fuel' Hfuel'. destruct (Hops fuel' Hfuel') as (_ & _ & _ & ->).
    by rewrite Hhist.
Qed.

Lemma C8_history_terminates_witness :
  let self := new "Elephant" "relevant" 1 1 1 in
  ∃ operations,
    walk 16 self (M self) (N self) [] = Some (0%nat, 0%nat, operations) ∧
    operations_history 16 self = Some (rev operations) ∧
    (length (rev operations) ≤ M self + N self)%nat ∧
    source_indices (rev operations) = seq 1 (M self) ∧
    target_indices (rev operations) = seq 1 (N self) ∧
    ∀ fuel', (String.length "Elephant" + String.length "relevant" ≤ fuel')%nat →
      operations_history fuel' self = operations_history 16 self.
Proof. apply (C8_history_terminates "Elephant" "relevant" 1 1 1 16). simpl. lia. Defined.

(** On a string against itself every diagonal cell holds 0 and, past the
    origin, the tag [NO_EDIT]. *)
Lemma cell_diagonal src rc ic dc k :
  cell src src rc ic dc k k = (0, match k with O => INSERT | S _ => NO_EDIT end).
Proof.
  induction k as [|k IH]; [reflexivity|].
  rewrite cell_interior. rewrite decide_True by done. by rewrite IH.
Qed.

Lemma walk_diagonal s rc ic dc k :
  ∀ fuel acc,
  (k ≤ String.length s)%nat → (k ≤ fuel)%nat →
  ∃ ops,
    walk fuel (new s s rc ic dc) k k acc = Some (0%nat, 0%nat, acc ++ ops) ∧
    length ops = k ∧
    Forall (λ r, operation r = "no_edit") ops.
Proof.
  induction k as [|k IH]; intros fuel acc Hk Hfuel.
  - exists []. rewrite app_nil_r. split; [|by split].
    by destruct fuel.
  - destruct fuel as [|fuel]; [lia|].
    rewrite walk_turn by lia.
    destruct (char_at_lt (lower s) k) as [c Hc]; [rewrite length_lower; lia|].
    assert (walk_step (new s s rc ic dc) (S k) (S k) acc
            = Some (k, k, acc ++ [mk_operation "no_edit" (S k)
                                    (Some (S k, c)) (Some (S k, c))])) as ->.
    { unfold walk_step. rewrite new_backtrace by lia.
      rewrite cell_diagonal. simpl snd. rewrite new_source, new_target.
      replace (S k - 1)%nat with k by lia. rewrite Hc. reflexivity. }
    destruct (IH fuel (acc ++ [mk_operation "no_edit" (S k)
                                 (Some (S k, c)) (Some (S k, c))]))
      as (ops & Hw & Hlen & Hall); [lia | lia |].
    eexists (_ :: ops). rewrite Hw. rewrite <- app_assoc. simpl.
    split; [reflexivity|]. split; [by rewrite Hlen|].
    by constructor.
Qed.

(** C9: for every string and every cost triple (zero and negative costs
    included), the distance from the string to itself is 0 and
    [operations_history] (with fuel for the length of the string) returns
    one ['no_edit'] record per character and nothing else. *)
Theorem C9_identical_strings s rc ic dc fuel :
  (String.length s ≤ fuel)%nat →
  get_edit_distance (new s s rc ic dc) = 0 ∧
  ∃ ops,
    operations_history fuel (new s s rc ic dc) = Some ops ∧
    length ops = String.length s ∧
    Forall (λ r, operation r = "no_edit") ops.
Proof.
  intros Hfuel. split.
  - unfold get_edit_distance. rewrite new_M, new_N.
    rewrite new_distance by done. by rewrite cell_diagonal.
  - destruct (walk_diagonal s rc ic dc (String.length s) fuel [])
      as (ops & Hw & Hlen & Hall); [lia | lia |].
    exists (rev ops). unfold operations_history.
    rewrite new_M, new_N, Hw. simpl. split; [done|].
    split.
    + by rewrite length_rev.
    + by apply List.Forall_rev.
Qed.

Lemma C9_identical_strings_witness :
  get_edit_distance (new "Banks" "Banks" (-1) 0 7) = 0 ∧
  ∃ ops,
    operations_history 5 (new "Banks" "Banks" (-1) 0 7) = Some ops ∧
    length ops = String.length "Banks" ∧
    Forall (λ r, operation r = "no_edit") ops.
Proof. apply (C9_identical_strings "Banks" (-1) 0 7 5). simpl. lia. Defined.

End HistoryClaims.

(** ** The corrector *)

Module CorrectorFacts.
Import Matrix Levenshtein SpellingCorrector Reference MatrixFacts BuildFacts EngineFacts.

Section Stages.

Context {Prob : Type}.
Variable prob_gt : Prob → Prob → bool.
Variable minus_one : Prob.
Variable probability : nat → Z → Prob.

Lemma find_misspelled_fold vocab l (acc : list (misspelled_word Prob)) :
  fold_left
    (λ acc word,
       if isalpha word then
         if decide (word ∈ vocab) then acc
         else acc ++ [mk_misspelled word [] [] None]
       else acc)
    l acc
  = acc ++ map (λ w, mk_misspelled w [] [] None) (filter (flagged vocab) l).
Proof.
  revert acc. induction l as [|w l IH]; intros acc; simpl.
  - by rewrite app_nil_r.
  - rewrite IH. rewrite filter_cons.
    destruct (decide (flagged vocab w)) as [[Halpha Hnin]|Hnot].
    + rewrite Halpha. rewrite decide_False by done.
      simpl. by rewrite <- app_assoc.
    + destruct (isalpha w) eqn:Halpha; [|done].
      destruct (decide (w ∈ vocab)) as [Hin|Hnin]; [done|].
      exfalso. apply Hnot. by split.
Qed.

Lemma find_misspelled_entries tokens vocab n :
  misspelled_words (find_misspelled (Prob:=Prob) tokens vocab n)
  = map (λ w, mk_misspelled w [] [] None) (filter (flagged vocab) (map lower tokens)).
Proof. unfold find_misspelled. simpl. by rewrite find_misspelled_fold. Qed.

Lemma scan_vocabulary_eq vocab n (entry : misspelled_word Prob) :
  scan_vocabulary vocab n entry
  = mk_misspelled (misspelled entry)
      (candidates entry ++ filter (within n (misspelled entry)) vocab)
      (probabilities entry) (best_candidates entry).
Proof.
  unfold scan_vocabulary. revert entry.
  induction vocab as [|w vocab IH]; intros [m c ps b]; simpl.
  - by rewrite app_nil_r.
  - rewrite filter_cons.
    destruct (decide (within n m w)) as [Hle|Hgt]; unfold within in *.
    + rewrite decide_True by exact Hle. rewrite IH. simpl. by rewrite <- app_assoc.
    + rewrite decide_False by exact Hgt. rewrite IH. done.
Qed.

Lemma entry_probabilities_fold vocab n m cs b l (acc : list Prob) :
  fold_left
    (λ entry candidate,
       mk_misspelled (misspelled entry) (candidates entry)
         (probabilities entry ++
            [probability (count_occ_str vocab candidate)
               (get_edit_distance (new (misspelled entry) candidate n 1 1))])
         (best_candidates entry))
    l (mk_misspelled m cs acc b)
  = mk_misspelled m cs
      (acc ++ map (λ c, probability (count_occ_str vocab c)
                          (get_edit_distance (new m c n 1 1))) l)
      b.
Proof.
  revert acc. induction l as [|x l IH]; intros acc; simpl.
  - by rewrite app_nil_r.
  - rewrite IH. by rewrite <- app_assoc.
Qed.

Lemma entry_probabilities_eq vocab n (entry : misspelled_word Prob) :
  entry_probabilities probability vocab n entry
  = mk_misspelled (misspelled entry) (candidates entry)
      (map (λ c, probability (count_occ_str vocab c)
                   (get_edit_distance (new (misspelled entry) c n 1 1)))
           (candidates entry))
      (best_candidates entry).
Proof. unfold entry_probabilities. by rewrite entry_probabilities_fold. Qed.

(** The entries of a constructed corrector. *)
Lemma new_corrector_entries tokens vocab n :
  misspelled_words (new_corrector prob_gt minus_one probability tokens vocab n)
  = map
      (λ w,
         let cs := filter (within n w) vocab in
         let ps := map (λ c, probability (count_occ_str vocab c)
                               (get_edit_distance (new w c n 1 1))) cs in
         mk_misspelled w cs ps (Some (snd (select_best prob_gt minus_one cs ps))))
      (filter (flagged vocab) (map lower tokens)).
Proof.
  unfold new_corrector, best_candidate, compute_probabilities, find_candidates.
  simpl. rewrite find_misspelled_fold. simpl. rewrite !map_map.
  apply map_ext. intros w. rewrite scan_vocabulary_eq. simpl.
  rewrite entry_probabilities_eq. simpl. done.
Qed.

End Stages.

Section Ranking.

Context {Prob : Type}.
Variable prob_gt : Prob → Prob → bool.

(** The comparison [>] of the probabilities is a strict order in which
    incomparable values are interchangeable, as [>] is on the
    floating-point numbers other than NaN. *)
Hypothesis prob_gt_asym : ∀ a b, prob_gt a b = true → prob_gt b a = false.
Hypothesis prob_gt_le :
  ∀ a b c, prob_gt a b = true → prob_gt c b = false → prob_gt a c = true.

Lemma prob_gt_irrefl a : prob_gt a a = false.
Proof.
  destruct (prob_gt a a) eqn:H; [|done].
  pose proof (prob_gt_asym _ _ H). congruence.
Qed.

(** The loop of [__best_candidate__] from any pair
    [(best_probability, best_candidate)]: either no element of the list
    is greater than [best_probability] and the pair is unchanged, or the
    pair is the first element of greatest probability. *)
Lemma best_loop (l : list (string * Prob)) :
  ∀ bp bc,
  let r := fold_left
             (λ best cp,
                if prob_gt (snd cp) (fst best) then (snd cp, fst cp) else best)
             l (bp, bc) in
  (r = (bp, bc) ∧ ∀ k c p, l !! k = Some (c, p) → prob_gt p bp = false)
  ∨ (∃ k c p,
       l !! k = Some (c, p) ∧ r = (p, c) ∧ prob_gt p bp = true ∧
       (∀ k' c' p', (k' < k)%nat → l !! k' = Some (c', p') → prob_gt p p' = true) ∧
       (∀ k' c' p', l !! k' = Some (c', p') → prob_gt p' p = false)).
Proof.
  induction l as [|[c0 p0] l IH]; intros bp bc; simpl.
  - left. split; [done|]. intros k c p H. destruct k; discriminate H.
  - destruct (prob_gt p0 bp) eqn:Hgt.
    + destruct (IH p0 c0) as [[Hr Hall]|(k & c & p & Hk & Hr & Hp & Hbefore & Hall)].
      * right. exists 0%nat, c0, p0. repeat split; try done.
        -- intros k' c' p' Hlt. lia.
        -- intros [|k'] c' p' Hk'; simpl in Hk'.
           ++ injection Hk' as <- <-. apply prob_gt_irrefl.
           ++ by eapply Hall.
      * right. exists (S k), c, p. repeat split; try done.
        -- eapply prob_gt_le; [exact Hp|]. by apply prob_gt_asym.
        -- intros [|k'] c' p' Hlt Hk'; simpl in Hk'.
           ++ by injection Hk' as <- <-.
           ++ eapply Hbefore; [|exact Hk']. lia.
        -- intros [|k'] c' p' Hk'; simpl in Hk'.
           ++ injection Hk' as <- <-. by apply prob_gt_asym.
           ++ by eapply Hall.
    + destruct (IH bp bc) as [[Hr Hall]|(k & c & p & Hk & Hr & Hp & Hbefore & Hall)].
      * left. split; [done|].
        intros [|k'] c' p' Hk'; simpl in Hk'.
        -- by injection Hk' as <- <-.
        -- by eapply Hall.
      * right. exists (S k), c, p. repeat split; try done.
        -- intros [|k'] c' p' Hlt Hk'; simpl in Hk'.
           ++ injection Hk' as <- <-. by eapply prob_gt_le.
           ++ eapply Hbefore; [|exact Hk']. lia.
        -- intros [|k'] c' p' Hk'; simpl in Hk'.
           ++ injection Hk' as <- <-.
              apply prob_gt_asym. by eapply prob_gt_le.
           ++ by eapply Hall.
Qed.

End Ranking.

Lemma lookup_combine_map {A B : Type} (g : A → B) (l : list A) k :
  combine l (map g l) !! k = (λ a, (a, g a)) <$> l !! k.
Proof.
  revert k. induction l as [|a l IH]; intros k; [by destruct k|].
  destruct k as [|k]; simpl; [done | apply IH].
Qed.

Lemma lookup_map {A B : Type} (g : A → B) (l : list A) k :
  map g l !! k = g <$> l !! k.
Proof.
  revert k. induction l as [|a l IH]; intros k; [by destruct k|].
  destruct k as [|k]; simpl; [done | apply IH].
Qed.

Lemma count_occ_str_pos vocab w : w ∈ vocab → (1 ≤ count_occ_str vocab w)%nat.
Proof.
  intros Hin. unfold count_occ_str.
  assert (w ∈ filter (λ x, x = w) vocab) as H by (by apply list_elem_of_filter).
  destruct (filter (λ x, x = w) vocab); [by apply elem_of_nil in H | simpl; lia].
Qed.

End CorrectorFacts.

Module CorrectorClaims.
Import Matrix Levenshtein SpellingCorrector Reference.
Import MatrixFacts BuildFacts EngineFacts CorrectorFacts.

(** C1 (defect of the code): a flagged token without candidates gets the
    empty string as its best candidate, and [retrive_corrected] replaces
    the token by it: the token is removed from the output. No exception
    is raised. With an empty vocabulary the text ["helo"] comes back as
    the empty string; with the vocabulary [["the"]] the text ["the qzx"]
    comes back as ["the "]. This holds whatever the floating-point layer
    is, no probability being computed. *)
Theorem C1_unmatched_token_is_removed
    (Prob : Type) (prob_gt : Prob → Prob → bool) (minus_one : Prob)
    (probability : nat → Z → Prob) :
  let self := new_corrector prob_gt minus_one probability ["helo"] [] 2 in
  let self' := new_corrector prob_gt minus_one probability ["the"; "qzx"] ["the"] 2 in
  misspelled_words self = [mk_misspelled "helo" [] [] (Some "")] ∧
  retrive_corrected self = Some "" ∧
  misspelled_words self' = [mk_misspelled "qzx" [] [] (Some "")] ∧
  retrive_corrected self' = Some "the ".
Proof. vm_compute. repeat split; reflexivity. Qed.

(** C6: in a constructed corrector the entries are the flagged tokens
    (lowercased, alphabetic, not in the vocabulary), in text order, and
    the candidates of the entry of a token are exactly the vocabulary
    words whose engine distance from the token, with replacement cost 2
    and insertion and deletion cost 1, is at most [n_edit], in vocabulary
    order and with the multiplicity they have in the vocabulary; a word
    is a candidate if and only if it is such a vocabulary word. *)
Theorem C6_candidates_are_the_close_words
    (Prob : Type) (prob_gt : Prob → Prob → bool) (minus_one : Prob)
    (probability : nat → Z → Prob) (tokens vocab : list string) (n : Z) :
  let self := new_corrector prob_gt minus_one probability tokens vocab n in
  map misspelled (misspelled_words self) = filter (flagged vocab) (map lower tokens) ∧
  ∀ i entry, misspelled_words self !! i = Some entry →
    candidates entry = filter (within n (misspelled entry)) vocab ∧
    ∀ w, w ∈ candidates entry ↔
         w ∈ vocab ∧ get_edit_distance (new (misspelled entry) w 2 1 1) ≤ n.
Proof.
  cbv zeta. rewrite new_corrector_entries. split.
  - rewrite map_map. simpl. apply map_id.
  - intros i entry Hentry. rewrite lookup_map in Hentry.
    destruct (filter (flagged vocab) (map lower tokens) !! i) as [t|]; [|discriminate].
    injection Hentry as <-. simpl. split; [done|].
    intros w. rewrite list_elem_of_filter. unfold within. tauto.
Qed.

Lemma exact_gt_asym a b : exact_gt a b = true → exact_gt b a = false.
Proof.
  unfold exact_gt. destruct (Qlt_le_dec b a) as [Hba|]; [|discriminate].
  intros _. destruct (Qlt_le_dec a b) as [Hab|]; [|done].
  exfalso. exact (Qlt_irrefl _ (Qlt_trans _ _ _ Hab Hba)).
Qed.

Lemma exact_gt_le a b c :
  exact_gt a b = true → exact_gt c b = false → exact_gt a c = true.
Proof.
  unfold exact_gt. destruct (Qlt_le_dec b a) as [Hba|]; [|discriminate].
  intros _. destruct (Qlt_le_dec b c) as [|Hcb]; [discriminate|].
  intros _. destruct (Qlt_le_dec c a) as [|Hac]; [done|].
  exfalso. apply (Qlt_irrefl a).
  eapply Qle_lt_trans; [exact Hac|]. eapply Qle_lt_trans; [exact Hcb | exact Hba].
Qed.

Lemma exact_probability_positive f d :
  (1 ≤ f)%nat → 0 ≤ d < 256 →
  exact_gt (exact_probability f d) exact_minus_one = true.
Proof.
  intros Hf Hd. unfold exact_gt, exact_probability, exact_minus_one.
  destruct (Qlt_le_dec _ _) as [|Hle]; [done|].
  exfalso. unfold Qle in Hle. simpl in Hle. lia.
Qed.

(** C10, the claim as stated fails: with the empty string in the
    vocabulary, the token ["a"] has the candidate list [[""]] and the
    best candidate [""]: the best candidate is the empty string although
    the candidate list is not empty. *)
Lemma C10_counterexample :
  let self :=
    new_corrector exact_gt exact_minus_one exact_probability ["a"] [""] 2 in
  ¬ (∀ i entry, misspelled_words self !! i = Some entry →
       (best_candidates entry = Some "" ↔ candidates entry = [])).
Proof.
  cbv zeta. intros H.
  specialize (H 0%nat (mk_misspelled "a" [""] [1 # 2]%Q (Some "")) eq_refl).
  simpl in H. destruct H as [H _]. specialize (H eq_refl). discriminate H.
Qed.

Section BestCandidate.

Context {Prob : Type}.
Variable prob_gt : Prob → Prob → bool.
Variable minus_one : Prob.
Variable probability : nat → Z → Prob.

Hypothesis prob_gt_asym : ∀ a b, prob_gt a b = true → prob_gt b a = false.
Hypothesis prob_gt_le :
  ∀ a b c, prob_gt a b = true → prob_gt c b = false → prob_gt a c = true.
Hypothesis probability_positive :
  ∀ f d, (1 ≤ f)%nat → 0 ≤ d < 256 → prob_gt (probability f d) minus_one = true.

(** C10, amended: after the construction of a corrector (the comparison
    [>] of probabilities being a strict order in which incomparable
    values are interchangeable, and every probability of a word of
    positive frequency being greater than -1), every entry has a best
    candidate; it is the empty string when the candidate list is empty;
    otherwise it is an element of the candidate list whose probability no
    other probability of the entry exceeds, and the earliest such: every
    earlier candidate has a strictly smaller probability. The lists of
    candidates and probabilities have the same length. *)
Theorem C10_best_candidate_is_first_maximum (tokens vocab : list string) (n : Z)
    (i : nat) (entry : misspelled_word Prob) :
  misspelled_words (new_corrector prob_gt minus_one probability tokens vocab n) !! i
    = Some entry →
  length (probabilities entry) = length (candidates entry) ∧
  ∃ best,
    best_candidates entry = Some best ∧
    (candidates entry = [] → best = EmptyString) ∧
    (candidates entry ≠ [] →
       ∃ k p,
         candidates entry !! k = Some best ∧
         probabilities entry !! k = Some p ∧
         (∀ k' p', probabilities entry !! k' = Some p' → prob_gt p' p = false) ∧
         (∀ k' p', (k' < k)%nat → probabilities entry !! k' = Some p' →
                   prob_gt p p' = true)).
Proof.
  rewrite new_corrector_entries, lookup_map.
  destruct (filter (flagged vocab) (map lower tokens) !! i) as [t|]; [|discriminate].
  intros Hentry. injection Hentry as <-. cbv zeta. simpl.
  set (cs := filter (within n t) vocab).
  set (g := λ c, probability (count_occ_str vocab c) (get_edit_distance (new t c n 1 1))).
  split; [by rewrite length_map|].
  eexists. split; [reflexivity|].
  unfold select_best.
  destruct (best_loop prob_gt prob_gt_asym prob_gt_le (combine cs (map g cs))
              minus_one EmptyString)
    as [[Hr Hall]|(k & c & p & Hk & Hr & Hp & Hbefore & Hall)];
    cbv zeta in Hr; rewrite Hr; simpl.
  - split; [done|]. intros Hne. exfalso.
    destruct cs as [|c0 cs'] eqn:Hcs; [done|].
    specialize (Hall 0%nat c0 (g c0) eq_refl).
    assert (c0 ∈ vocab) as Hin.
    { assert (c0 ∈ filter (within n t) vocab) as H0.
      { fold cs. rewrite Hcs. apply elem_of_cons. by left. }
      by apply list_elem_of_filter in H0 as [_ H0]. }
    unfold g in Hall. rewrite probability_positive in Hall; [discriminate| |].
    + by apply count_occ_str_pos.
    + unfold get_edit_distance. rewrite new_M, new_N. by apply new_distance_range.
  - rewrite lookup_combine_map in Hk.
    destruct (cs !! k) as [ck|] eqn:Hck; [|discriminate].
    simpl in Hk. injection Hk as -> <-.
    split.
    + intros Hnil. rewrite Hnil in Hck. destruct k; discriminate Hck.
    + intros _. exists k, (g c). split; [done|].
      split; [by rewrite lookup_map, Hck|].
      split.
      * intros k' p' Hk'. rewrite lookup_map in Hk'.
        destruct (cs !! k') as [c'|] eqn:Hc'; [|discriminate].
        injection Hk' as <-. apply (Hall k' c').
        by rewrite lookup_combine_map, Hc'.
      * intros k' p' Hlt Hk'. rewrite lookup_map in Hk'.
        destruct (cs !! k') as [c'|] eqn:Hc'; [|discriminate].
        injection Hk' as <-. apply (Hbefore k' c'); [done|].
        by rewrite lookup_combine_map, Hc'.
Qed.

End BestCandidate.

Lemma C10_best_candidate_is_first_maximum_witness :
  let entry :=
    mk_misspelled "strongss" ["strong"; "strongs"] [1 # 3; 1 # 2]%Q (Some "strongs") in
  length (probabilities entry) = length (candidates entry) ∧
  ∃ best,
    best_candidates entry = Some best ∧
    (candidates entry = [] → best = EmptyString) ∧
    (candidates entry ≠ [] →
       ∃ k p,
         candidates entry !! k = Some best ∧
         probabilities entry !! k = Some p ∧
         (∀ k' p', probabilities entry !! k' = Some p' → exact_gt p' p = false) ∧
         (∀ k' p', (k' < k)%nat → probabilities entry !! k' = Some p' →
                   exact_gt p p' = true)).
Proof.
  apply (C10_best_candidate_is_first_maximum exact_gt exact_minus_one
           exact_probability exact_gt_asym exact_gt_le exact_probability_positive
           ["strongss"] ["strong"; "banks"; "strongs"; "iranian"] 2 0).
  vm_compute. reflexivity.
Defined.

End CorrectorClaims.

(** ** Further properties of the engine *)

Module EngineExtras.
Import Matrix Levenshtein Reference MatrixFacts BuildFacts EngineFacts.


(** The tags of the backtrace matrix: the whole first row, corner
    included, is tagged [INSERT] (the second initialisation loop
    overwrites the [DELETE] the first one left in the corner), the first
    column below the corner is tagged [DELETE], and an interior cell is
    tagged [NO_EDIT] exactly when its two characters are equal. *)
Theorem backtrace_tags s t rc ic dc :
  let self := new s t rc ic dc in
  let B := backtrace_matrix self in
  (∀ j, (j ≤ N self)%nat → mget B 0 j = INSERT) ∧
  (∀ i, (1 ≤ i ≤ M self)%nat → mget B i 0 = DELETE) ∧
  (∀ i j, (1 ≤ i ≤ M self)%nat → (1 ≤ j ≤ N self)%nat →
     (mget B i j = NO_EDIT ↔
      char_at (source self) (i - 1) = char_at (target self) (j - 1))).
Proof.
  cbv zeta. rewrite new_M, new_N, new_source, new_target.
  split; [|split].
  - intros j Hj. rewrite new_backtrace by (done || lia). done.
  - intros i Hi. rewrite new_backtrace by (done || lia).
    destruct i as [|i]; [lia | done].
  - intros i j Hi Hj. rewrite new_backtrace by lia.
    destruct i as [|i]; [lia|]. destruct j as [|j]; [lia|].
    replace (S i - 1)%nat with i by lia. replace (S j - 1)%nat with j by lia.
    rewrite cell_interior. cbv zeta.
    repeat case_decide; simpl; unfold NO_EDIT, INSERT, DELETE, REPLACE;
      split; intros Htag; (done || lia).
Qed.

Lemma lower_ascii_idem c : lower_ascii (lower_ascii c) = lower_ascii c.
Proof. destruct c as [[] [] [] [] [] [] [] []]; reflexivity. Qed.

Lemma lower_idem s : lower (lower s) = lower s.
Proof.
  induction s as [|c s IH]; simpl; [done|]. by rewrite lower_ascii_idem, IH.
Qed.

(** The engine does not see the case of its arguments: the distance of
    two strings is the distance of their lowercased forms, cell by
    cell. *)
Theorem distance_ignores_case s t rc ic dc (i j : nat) :
  (i ≤ String.length s)%nat → (j ≤ String.length t)%nat →
  mget (distance_matrix (new s t rc ic dc)) i j
    = mget (distance_matrix (new (lower s) (lower t) rc ic dc)) i j ∧
  mget (backtrace_matrix (new s t rc ic dc)) i j
    = mget (backtrace_matrix (new (lower s) (lower t) rc ic dc)) i j ∧
  get_edit_distance (new s t rc ic dc)
    = get_edit_distance (new (lower s) (lower t) rc ic dc).
Proof.
  intros Hi Hj. unfold get_edit_distance.
  rewrite !new_M, !new_N, !length_lower.
  rewrite !new_distance, !new_backtrace by (rewrite ?length_lower; done).
  by rewrite !lower_idem.
Qed.

Lemma distance_ignores_case_witness :
  mget (distance_matrix (new "Elephant" "RELEVANT" 1 1 1)) 3 5
    = mget (distance_matrix (new (lower "Elephant") (lower "RELEVANT") 1 1 1)) 3 5 ∧
  mget (backtrace_matrix (new "Elephant" "RELEVANT" 1 1 1)) 3 5
    = mget (backtrace_matrix (new (lower "Elephant") (lower "RELEVANT") 1 1 1)) 3 5 ∧
  get_edit_distance (new "Elephant" "RELEVANT" 1 1 1)
    = get_edit_distance (new (lower "Elephant") (lower "RELEVANT") 1 1 1).
Proof.
  apply (distance_ignores_case "Elephant" "RELEVANT" 1 1 1 3 5); simpl; lia.
Defined.

Lemma cell_symmetric a b rc c i :
  ∀ j, fst (cell a b rc c c i j) = fst (cell b a rc c c j i).
Proof.
  induction i as [|i IHi]; intros j.
  - by destruct j.
  - induction j as [|j IHj]; [done|].
    rewrite !cell_interior. cbv zeta.
    rewrite <- (IHi j), <- (IHi (S j)), IHj.
    set (L := fst (cell b a rc c c j (S i))).
    set (U := fst (cell a b rc c c i (S j))).
    set (G := fst (cell a b rc c c i j)).
    rewrite (Z.min_comm U L).
    destruct (decide (char_at a i = char_at b j)) as [Heq|Hne].
    + by rewrite decide_True.
    + rewrite (decide_False (P := char_at b j = char_at a i)) by (intros H; by symmetry in H).
      repeat case_decide; simpl; congruence.
Qed.

(** With equal insertion and deletion costs the distance is symmetric:
    the engine built on [(t, s)] returns what the engine built on
    [(s, t)] returns, for every replacement cost. *)
Theorem distance_symmetric s t rc c :
  get_edit_distance (new s t rc c c) = get_edit_distance (new t s rc c c).
Proof.
  unfold get_edit_distance. rewrite !new_M, !new_N.
  rewrite !new_distance by done. apply cell_symmetric.
Qed.

(** With insertion and deletion costs of 1 and a replacement cost of 1 or
    2 (the defaults, and the costs [__find_candidates__] uses), taking
    the minimum before the cost is added makes no difference: an interior
    mismatch cell holds the minimum of the three candidate costs, modulo
    256. *)
Theorem interior_recurrence_corrector_costs s t rc (i j : nat) :
  1 ≤ rc ≤ 2 →
  (1 ≤ i ≤ String.length s)%nat → (1 ≤ j ≤ String.length t)%nat →
  let self := new s t rc 1 1 in
  let D := distance_matrix self in
  char_at (source self) (i - 1) ≠ char_at (target self) (j - 1) →
  mget D i j =
    uint8 (Z.min (Z.min (mget D i (j - 1) + 1) (mget D (i - 1) j + 1))
                 (mget D (i - 1) (j - 1) + rc)).
Proof.
  intros Hrc Hi Hj. cbv zeta. rewrite new_source, new_target. intros Hne.
  pose proof (new_interior s t rc 1 1 i j Hi Hj) as H. cbv zeta in H.
  apply (f_equal fst) in H. simpl in H. rewrite H.
  rewrite decide_False by done.
  repeat case_decide; simpl; f_equal; lia.
Qed.

Lemma interior_recurrence_corrector_costs_witness :
  let self := new "a" "bc" 2 1 1 in
  let D := distance_matrix self in
  mget D 1 2 =
    uint8 (Z.min (Z.min (mget D 1 (2 - 1) + 1) (mget D (1 - 1) 2 + 1))
                 (mget D (1 - 1) (2 - 1) + 2)).
Proof.
  apply (interior_recurrence_corrector_costs "a" "bc" 2 1 2).
  - lia.
  - simpl. lia.
  - simpl. lia.
  - vm_compute. intros H. discriminate H.
Defined.

Lemma cell_bounds src tgt rc i :
  1 ≤ rc ≤ 2 →
  ∀ j, (i + j ≤ 255)%nat →
  Z.abs (Z.of_nat i - Z.of_nat j) ≤ fst (cell src tgt rc 1 1 i j) ≤ Z.of_nat (i + j).
Proof.
  intros Hrc. induction i as [|i IHi]; intros j Hij.
  - rewrite cell_row0. simpl fst. rewrite uint8_small by lia. lia.
  - induction j as [|j IHj].
    + rewrite cell_col0. simpl fst. rewrite uint8_small by lia. lia.
    + rewrite cell_interior. cbv zeta.
      pose proof (IHi j ltac:(lia)) as HG.
      pose proof (IHi (S j) ltac:(lia)) as HU.
      pose proof (IHj ltac:(lia)) as HL.
      repeat case_decide; cbn [fst]; rewrite ?uint8_small by lia; lia.
Qed.

(** With insertion and deletion costs of 1, a replacement cost of 1 or 2
    and strings whose lengths add up to at most 255, nothing wraps: the
    distance is at least the difference of the two lengths and at most
    their sum. *)
Theorem distance_bounds s t rc :
  1 ≤ rc ≤ 2 →
  (String.length s + String.length t ≤ 255)%nat →
  Z.abs (Z.of_nat (String.length s) - Z.of_nat (String.length t))
    ≤ get_edit_distance (new s t rc 1 1)
    ≤ Z.of_nat (String.length s + String.length t).
Proof.
  intros Hrc Hlen. unfold get_edit_distance. rewrite new_M, new_N.
  rewrite new_distance by done. by apply cell_bounds.
Qed.

Lemma distance_bounds_witness :
  Z.abs (Z.of_nat (String.length "strongss") - Z.of_nat (String.length "strong"))
    ≤ get_edit_distance (new "strongss" "strong" 2 1 1)
    ≤ Z.of_nat (String.length "strongss" + String.length "strong").
Proof. apply (distance_bounds "strongss" "strong" 2); simpl; lia. Defined.

Lemma cell_zero_diagonal src tgt rc i :
  1 ≤ rc ≤ 2 → (i + i ≤ 255)%nat →
  fst (cell src tgt rc 1 1 i i) = 0 →
  ∀ k, (k < i)%nat → char_at src k = char_at tgt k.
Proof.
  intros Hrc. induction i as [|i IH]; intros Hi Hzero k Hk; [lia|].
  rewrite cell_interior in Hzero. cbv zeta in Hzero.
  pose proof (cell_bounds src tgt rc i Hrc i ltac:(lia)) as HG.
  pose proof (cell_bounds src tgt rc i Hrc (S i) ltac:(lia)) as HU.
  pose proof (cell_bounds src tgt rc (S i) Hrc i ltac:(lia)) as HL.
  destruct (decide (char_at src i = char_at tgt i)) as [Heq|Hne].
  - cbn [fst] in Hzero. destruct (decide (k = i)) as [->|Hki]; [done|].
    apply IH; (done || lia).
  - exfalso. revert Hzero.
    repeat case_decide; cbn [fst]; rewrite ?uint8_small by lia; lia.
Qed.

Lemma string_get_past_end x :
  ∀ k, (String.length x ≤ k)%nat → String.get k x = None.
Proof.
  induction x as [|c x IH]; intros k Hk; simpl.
  - by destruct k.
  - destruct k as [|k]; simpl in *; [lia|]. apply IH. lia.
Qed.

(** Under the same conditions the distance is 0 exactly when the two
    strings are equal up to case. *)
Theorem distance_zero_iff_equal s t rc :
  1 ≤ rc ≤ 2 →
  (String.length s + String.length t ≤ 255)%nat →
  get_edit_distance (new s t rc 1 1) = 0 ↔ lower s = lower t.
Proof.
  intros Hrc Hlen. split.
  - intros Hzero.
    pose proof (distance_bounds s t rc Hrc Hlen) as Hb. rewrite Hzero in Hb.
    assert (String.length s = String.length t) as Hst by lia.
    unfold get_edit_distance in Hzero. rewrite new_M, new_N in Hzero.
    rewrite new_distance in Hzero by done. rewrite <- Hst in Hzero.
    apply String.get_correct. intros k.
    destruct (decide (k < String.length s)%nat) as [Hk|Hk].
    + apply (cell_zero_diagonal _ _ rc (String.length s) Hrc ltac:(lia) Hzero k Hk).
    + rewrite !string_get_past_end by (rewrite length_lower; lia). done.
  - intros Heq.
    assert (String.length s = String.length t) as Hst.
    { by rewrite <- (length_lower s), <- (length_lower t), Heq. }
    unfold get_edit_distance. rewrite new_M, new_N.
    rewrite new_distance by done. rewrite Heq, Hst.
    clear. induction (String.length t) as [|k IH]; [done|].
    rewrite cell_interior. by rewrite decide_True.
Qed.

Lemma distance_zero_iff_equal_witness :
  get_edit_distance (new "Paris" "paris" 2 1 1) = 0 ↔ lower "Paris" = lower "paris".
Proof. apply (distance_zero_iff_equal "Paris" "paris" 2); simpl; lia. Defined.

(** The first column and the first row of the distance matrix hold the
    index itself, in eight bits, whatever the three costs are: the
    initialisation loops do not use the deletion and insertion costs. *)
Theorem first_column_and_row s t rc ic dc (i j : nat) :
  (i ≤ String.length s)%nat → (j ≤ String.length t)%nat →
  let self := new s t rc ic dc in
  mget (distance_matrix self) i 0 = Z.of_nat i mod 256 ∧
  mget (distance_matrix self) 0 j = Z.of_nat j mod 256.
Proof.
  intros Hi Hj. cbv zeta. split.
  - by apply new_first_column.
  - by apply new_first_row.
Qed.

Lemma first_column_and_row_witness :
  let self := new "banks" "strong" 2 3 5 in
  mget (distance_matrix self) 4 0 = Z.of_nat 4 mod 256 ∧
  mget (distance_matrix self) 0 6 = Z.of_nat 6 mod 256.
Proof. apply (first_column_and_row "banks" "strong" 2 3 5 4 6); simpl; lia. Defined.

End EngineExtras.

(** ** Further properties of the operation history *)

Module HistoryExtras.
Import Matrix Levenshtein Reference MatrixFacts BuildFacts EngineFacts HistoryFacts.

Lemma history_cost_app rc ic dc ops1 ops2 :
  history_cost rc ic dc (ops1 ++ ops2)
  = history_cost rc ic dc ops1 + history_cost rc ic dc ops2.
Proof. induction ops1 as [|r ops1 IH]; simpl; [done | rewrite IH; lia]. Qed.

Lemma history_cost_rev rc ic dc ops :
  history_cost rc ic dc (rev ops) = history_cost rc ic dc ops.
Proof.
  induction ops as [|r ops IH]; simpl; [done|].
  rewrite history_cost_app, IH. simpl. lia.
Qed.

Lemma uint8_add_l a b : uint8 (uint8 a + b) = uint8 (a + b).
Proof. unfold uint8. apply Z.add_mod_idemp_l. lia. Qed.

Lemma operation_cost_inserting rc ic dc k sc tc :
  operation_cost rc ic dc (mk_operation "inserting" k sc tc) = ic.
Proof. reflexivity. Qed.

Lemma operation_cost_deleting rc ic dc k sc tc :
  operation_cost rc ic dc (mk_operation "deleting" k sc tc) = dc.
Proof. reflexivity. Qed.

Lemma operation_cost_replacing rc ic dc k sc tc :
  operation_cost rc ic dc (mk_operation "replacing" k sc tc) = rc.
Proof. reflexivity. Qed.

Lemma operation_cost_no_edit rc ic dc k sc tc :
  operation_cost rc ic dc (mk_operation "no_edit" k sc tc) = 0.
Proof. reflexivity. Qed.

Section WalkCost.

Variables (s t : string) (rc : Z).

(** One turn of the loop moves to the neighbour the cell was computed
    from: the cell is that neighbour plus the cost of the record the turn
    appends, in eight bits. *)
Lemma walk_step_cost i j acc i' j' acc' :
  (i ≤ String.length s)%nat → (j ≤ String.length t)%nat → (0 < i ∨ 0 < j)%nat →
  walk_step (new s t rc 1 1) i j acc = Some (i', j', acc') →
  (i' ≤ i)%nat ∧ (j' ≤ j)%nat ∧
  ∃ r, acc' = acc ++ [r] ∧
       fst (cell (lower s) (lower t) rc 1 1 i j)
       = uint8 (fst (cell (lower s) (lower t) rc 1 1 i' j') + operation_cost rc 1 1 r).
Proof.
  intros Hi Hj Hpos. unfold walk_step.
  rewrite new_backtrace by done. rewrite new_source, new_target.
  destruct i as [|i], j as [|j]; [lia | | |].
  - rewrite cell_row0. cbn [snd fst].
    rewrite decide_True by done. rewrite decide_False by lia.
    replace (S j - 1)%nat with j by lia.
    destruct (char_at (lower t) j) as [c|]; [|discriminate]. simpl.
    intros H. injection H as <- <- <-. split; [lia|]. split; [lia|].
    eexists. split; [reflexivity|].
    rewrite operation_cost_inserting, cell_row0. cbn [fst].
    rewrite uint8_add_l. f_equal. lia.
  - rewrite cell_col0. cbn [snd fst].
    replace (S i - 1)%nat with i by lia.
    destruct (char_at (lower s) i) as [c|]; [|discriminate]. simpl.
    intros H. injection H as <- <- <-. split; [lia|]. split; [lia|].
    eexists. split; [reflexivity|].
    rewrite operation_cost_deleting. destruct i as [|i].
    + reflexivity.
    + rewrite cell_col0. cbn [fst]. rewrite uint8_add_l. f_equal. lia.
  - replace (S i - 1)%nat with i by lia. replace (S j - 1)%nat with j by lia.
    rewrite cell_interior. cbv zeta.
    pose proof (cell_fst_range (lower s) (lower t) rc 1 1 i j) as HG.
    destruct (char_at (lower s) i) as [cs|]; destruct (char_at (lower t) j) as [ct|];
      repeat case_decide; cbn [snd fst mbind option_bind];
      try discriminate;
      intros Hsome; injection Hsome as <- <- <-;
      (split; [lia|]); (split; [lia|]);
      (eexists; split; [reflexivity|]);
      rewrite ?operation_cost_inserting, ?operation_cost_deleting,
        ?operation_cost_replacing, ?operation_cost_no_edit;
      rewrite ?Z.add_0_r, ?uint8_small by done; try done; f_equal; lia.
Qed.

Lemma walk_cost fuel :
  ∀ i j acc i0 j0 acc',
  (i ≤ String.length s)%nat → (j ≤ String.length t)%nat →
  walk fuel (new s t rc 1 1) i j acc = Some (i0, j0, acc') →
  uint8 (fst (cell (lower s) (lower t) rc 1 1 i j) + history_cost rc 1 1 acc)
  = uint8 (history_cost rc 1 1 acc').
Proof.
  induction fuel as [|fuel IH]; intros i j acc i0 j0 acc' Hi Hj Hwalk; simpl in Hwalk.
  - destruct (decide (0 < i ∨ 0 < j)%nat); [discriminate|].
    injection Hwalk as <- <- <-.
    assert (i = 0 ∧ j = 0)%nat as [-> ->] by lia. done.
  - destruct (decide (0 < i ∨ 0 < j)%nat) as [Hpos|Hzero].
    + destruct (walk_step (new s t rc 1 1) i j acc) as [[[i' j'] acc1]|] eqn:Hstep;
        [|discriminate].
      destruct (walk_step_cost _ _ _ _ _ _ Hi Hj Hpos Hstep)
        as (Hi' & Hj' & r & -> & Hcell).
      assert (i' ≤ String.length s)%nat as Hi'' by lia.
      assert (j' ≤ String.length t)%nat as Hj'' by lia.
      rewrite <- (IH _ _ _ _ _ _ Hi'' Hj'' Hwalk).
      rewrite Hcell, history_cost_app. cbn [history_cost].
      rewrite uint8_add_l. f_equal. lia.
    + injection Hwalk as <- <- <-.
      assert (i = 0 ∧ j = 0)%nat as [-> ->] by lia. done.
Qed.

End WalkCost.

(** With insertion and deletion costs of 1 and any replacement cost, the
    operation history accounts for the distance: whenever
    [operations_history] returns, the costs of its records add up to the
    value of [get_edit_distance], modulo 256. With unit costs the number
    of records other than ['no_edit'] is the distance modulo 256. *)
Theorem history_cost_is_distance s t rc fuel ops :
  operations_history fuel (new s t rc 1 1) = Some ops →
  uint8 (history_cost rc 1 1 ops) = get_edit_distance (new s t rc 1 1).
Proof.
  unfold operations_history, get_edit_distance. rewrite new_M, new_N.
  destruct (walk fuel _ _ _ _) as [[[i0 j0] acc]|] eqn:Hwalk; [|discriminate].
  intros H. injection H as <-.
  rewrite history_cost_rev.
  rewrite <- (walk_cost s t rc fuel _ _ _ _ _ _ (le_n _) (le_n _) Hwalk).
  simpl. rewrite Z.add_0_r. rewrite new_distance by done.
  apply uint8_small, cell_fst_range.
Qed.

Lemma history_cost_is_distance_witness :
  ∃ ops,
    operations_history 16 (new "Elephant" "relevant" 1 1 1) = Some ops ∧
    uint8 (history_cost 1 1 1 ops) = get_edit_distance (new "Elephant" "relevant" 1 1 1).
Proof.
  eexists. split; [vm_compute; reflexivity|].
  apply (history_cost_is_distance "Elephant" "relevant" 1 16). vm_compute. reflexivity.
Defined.

Section WalkRecords.

Variables (s t : string) (rc ic dc : Z).

Lemma walk_step_record i j acc i' j' acc' :
  (i ≤ String.length s)%nat → (j ≤ String.length t)%nat → (0 < i ∨ 0 < j)%nat →
  walk_step (new s t rc ic dc) i j acc = Some (i', j', acc') →
  (i' ≤ i)%nat ∧ (j' ≤ j)%nat ∧ ∃ r, acc' = acc ++ [r] ∧ record_consistent r.
Proof.
  intros Hi Hj Hpos. unfold walk_step, record_consistent.
  rewrite new_backtrace by done. rewrite new_source, new_target.
  destruct i as [|i], j as [|j]; [lia | | |].
  - rewrite cell_row0. cbn [snd].
    rewrite decide_True by done. rewrite decide_False by lia.
    destruct (char_at (lower t) (S j - 1)) as [c|]; [|discriminate].
    cbn [mbind option_bind].
    intros H. injection H as <- <- <-. split; [lia|]. split; [lia|].
    eexists. split; [reflexivity|]. left. simpl. eauto 10.
  - rewrite cell_col0. cbn [snd].
    destruct (char_at (lower s) (S i - 1)) as [c|]; [|discriminate]. simpl.
    intros H. injection H as <- <- <-. split; [lia|]. split; [lia|].
    eexists. split; [reflexivity|]. right. left. simpl. eauto 10.
  - replace (S i - 1)%nat with i by lia. replace (S j - 1)%nat with j by lia.
    rewrite cell_interior. cbv zeta.
    destruct (char_at (lower s) i) as [cs|] eqn:Hcs;
      destruct (char_at (lower t) j) as [ct|] eqn:Hct;
      repeat case_decide; cbn [snd mbind option_bind];
      try discriminate;
      intros Hsome; injection Hsome as <- <- <-;
      (split; [lia|]); (split; [lia|]);
      (eexists; split; [reflexivity|]); simpl;
      first
        [ by (left; eauto 10)
        | by (right; left; eauto 10)
        | (right; right; left; split; [reflexivity|];
           exists (S i), (S j), cs, ct; repeat split; congruence)
        | (right; right; right; split; [reflexivity|];
           exists (S i), (S j), cs; repeat split; congruence) ].
Qed.

Lemma walk_records fuel :
  ∀ i j acc i0 j0 acc',
  (i ≤ String.length s)%nat → (j ≤ String.length t)%nat →
  Forall record_consistent acc →
  walk fuel (new s t rc ic dc) i j acc = Some (i0, j0, acc') →
  Forall record_consistent acc'.
Proof.
  induction fuel as [|fuel IH]; intros i j acc i0 j0 acc' Hi Hj Hacc Hwalk;
    simpl in Hwalk.
  - destruct (decide (0 < i ∨ 0 < j)%nat); [discriminate|].
    by injection Hwalk as <- <- <-.
  - destruct (decide (0 < i ∨ 0 < j)%nat) as [Hpos|Hzero].
    + destruct (walk_step (new s t rc ic dc) i j acc) as [[[i' j'] acc1]|] eqn:Hstep;
        [|discriminate].
      destruct (walk_step_record _ _ _ _ _ _ Hi Hj Hpos Hstep)
        as (Hi' & Hj' & r & -> & Hr).
      assert (i' ≤ String.length s)%nat as Hi'' by lia.
      assert (j' ≤ String.length t)%nat as Hj'' by lia.
      eapply (IH i' j' (acc ++ [r])); [exact Hi'' | exact Hj'' | | exact Hwalk].
      apply Forall_app. split; [exact Hacc|].
      apply List.Forall_cons; [exact Hr | apply List.Forall_nil].
    + by injection Hwalk as <- <- <-.
Qed.

End WalkRecords.

(** Every record [operations_history] returns is well formed, for every
    pair of strings and every cost triple: in particular a ['replacing']
    record pairs two different characters and a ['no_edit'] record twice
    the same character. *)
Theorem history_records_consistent s t rc ic dc fuel ops :
  operations_history fuel (new s t rc ic dc) = Some ops →
  Forall record_consistent ops.
Proof.
  unfold operations_history. rewrite new_M, new_N.
  destruct (walk fuel _ _ _ _) as [[[i0 j0] acc]|] eqn:Hwalk; [|discriminate].
  intros H. injection H as <-.
  apply List.Forall_rev.
  eapply (walk_records s t rc ic dc fuel);
    [apply le_n | apply le_n | constructor | exact Hwalk].
Qed.

Lemma history_records_consistent_witness :
  ∃ ops,
    operations_history 16 (new "Elephant" "relevant" 1 1 1) = Some ops ∧
    Forall record_consistent ops.
Proof.
  eexists. split; [vm_compute; reflexivity|].
  apply (history_records_consistent "Elephant" "relevant" 1 1 1 16).
  vm_compute. reflexivity.
Defined.

End HistoryExtras.

(** ** The display grid of [backtrace_to_ascii] *)

Module AsciiExtras.
Import Matrix Levenshtein Reference MatrixFacts BuildFacts EngineFacts HistoryFacts.

Section Grid.

Context {A : Type}.

Lemma grid_shape_replicate rows cols (v : A) :
  grid_shape (replicate rows (replicate cols v)) rows cols.
Proof.
  split; [apply length_replicate|].
  intros i row Hrow. apply lookup_replicate in Hrow as [-> _].
  apply length_replicate.
Qed.

Lemma grid_set_shape (g : list (list A)) rows cols i j v :
  grid_shape g rows cols → grid_shape (grid_set g i j v) rows cols.
Proof.
  intros [Hlen Hrows]. unfold grid_set.
  destruct (g !! i) as [row|] eqn:Hi; [|by split].
  split; [by rewrite length_insert|].
  intros k r Hk. destruct (decide (i = k)) as [->|Hne].
  - rewrite list_lookup_insert_eq in Hk by (by eapply lookup_lt_Some).
    injection Hk as <-. rewrite length_insert. by eapply Hrows.
  - rewrite list_lookup_insert_ne in Hk by done. by eapply Hrows.
Qed.

Lemma grid_get_set_eq d (g : list (list A)) rows cols i j v :
  grid_shape g rows cols → (i < rows)%nat → (j < cols)%nat →
  grid_get d (grid_set g i j v) i j = v.
Proof.
  intros [Hlen Hrows] Hi Hj. unfold grid_get, grid_set.
  destruct (lookup_lt_is_Some_2 g i) as [row Hrow]; [lia|].
  rewrite Hrow. rewrite list_lookup_insert_eq by lia.
  rewrite list_lookup_insert_eq; [done|].
  rewrite (Hrows _ _ Hrow). lia.
Qed.

Lemma grid_get_set_ne d (g : list (list A)) i j v a b :
  (a ≠ i ∨ b ≠ j) → grid_get d (grid_set g i j v) a b = grid_get d g a b.
Proof.
  intros Hne. unfold grid_get, grid_set.
  destruct (g !! i) as [row|] eqn:Hrow; [|done].
  destruct (decide (i = a)) as [->|Hia].
  - rewrite list_lookup_insert_eq by (by eapply lookup_lt_Some).
    rewrite Hrow. rewrite list_lookup_insert_ne; [done|]. intros ->. by destruct Hne.
  - by rewrite list_lookup_insert_ne.
Qed.

Variables (d : A) (f : nat → nat → A) (rows cols : nat).

(** The grid [g] has the shape of the section and holds [f] in the cells
    selected by [P]. *)
Definition grid_agrees (P : nat → nat → Prop) (g : list (list A)) : Prop :=
  grid_shape g rows cols ∧
  ∀ a b, (a < rows)%nat → (b < cols)%nat → P a b → grid_get d g a b = f a b.

Lemma grid_agrees_store (P : nat → nat → Prop) g i j v :
  grid_agrees P g → (i < rows)%nat → (j < cols)%nat → v = f i j →
  grid_agrees (λ a b, P a b ∨ (a = i ∧ b = j)) (grid_set g i j v).
Proof.
  intros [Hshape Hcells] Hi Hj ->. split; [by apply grid_set_shape|].
  intros a b Ha Hb HP.
  destruct (decide (a = i ∧ b = j)) as [[-> ->]|Hne].
  - by rewrite (grid_get_set_eq _ _ rows cols).
  - rewrite grid_get_set_ne by (clear -Hne; lia).
    destruct HP as [HP|HP]; [auto | tauto].
Qed.

Lemma grid_agrees_weaken (P Q : nat → nat → Prop) g :
  grid_agrees P g →
  (∀ a b, (a < rows)%nat → (b < cols)%nat → Q a b → P a b) →
  grid_agrees Q g.
Proof. intros [Hshape Hcells] HPQ. split; auto. Qed.

End Grid.

Lemma cell_snd_cases src tgt rc ic dc i j :
  let b := snd (cell src tgt rc ic dc i j) in
  b = NO_EDIT ∨ b = INSERT ∨ b = DELETE ∨ b = REPLACE.
Proof.
  cbv zeta.
  destruct i as [|i]; [rewrite cell_row0; simpl; auto|].
  destruct j as [|j]; [rewrite cell_col0; simpl; auto|].
  rewrite cell_interior. cbv zeta. repeat case_decide; simpl; auto.
Qed.

Section Display.

Variables (s t : string) (rc ic dc : Z).

(** The character expected in each cell of the display. *)
Definition display (a b : nat) : ascii :=
  match a, b with
  | O, O => "#"%char
  | O, S b' => default Ascii.zero (char_at (lower t) b')
  | S a', O => default Ascii.zero (char_at (lower s) a')
  | _, _ => tag_symbol (snd (cell (lower s) (lower t) rc ic dc a b))
  end.

Lemma ascii_cell_store i j g :
  (1 ≤ i ≤ String.length s)%nat → (1 ≤ j ≤ String.length t)%nat →
  ascii_cell (new s t rc ic dc) i g j = grid_set g i j (display i j).
Proof.
  intros Hi Hj. unfold ascii_cell. rewrite new_backtrace by lia.
  destruct i as [|i]; [lia|]. destruct j as [|j]; [lia|].
  unfold display, tag_symbol.
  destruct (cell_snd_cases (lower s) (lower t) rc ic dc (S i) (S j))
    as [-> | [-> | [-> | ->]]]; reflexivity.
Qed.

Lemma display_interior :
  grid_agrees Ascii.zero display (String.length s + 1) (String.length t + 1)
    (λ a b, 1 ≤ a ∧ 1 ≤ b)%nat
    (for_range 1 (String.length s + 1)
       (λ a i, for_range 1 (String.length t + 1) (ascii_cell (new s t rc ic dc) i) a)
       (replicate (String.length s + 1) (replicate (String.length t + 1) "N"%char))).
Proof.
  eapply grid_agrees_weaken.
  - apply (for_range_ind
             (λ i g, grid_agrees Ascii.zero display
                       (String.length s + 1) (String.length t + 1)
                       (λ a b, 1 ≤ a ∧ 1 ≤ b ∧ a < i)%nat g)).
    + lia.
    + split; [apply grid_shape_replicate|]. intros a b _ _ H. lia.
    + intros i g Hi Hg.
      eapply grid_agrees_weaken.
      * apply (for_range_ind
                 (λ j g, grid_agrees Ascii.zero display
                           (String.length s + 1) (String.length t + 1)
                           (λ a b, 1 ≤ a ∧ 1 ≤ b ∧ (a < i ∨ (a = i ∧ b < j)))%nat g)).
        -- lia.
        -- eapply grid_agrees_weaken; [exact Hg|]. intros; cbv beta in *; lia.
        -- intros j g' Hj Hg'. rewrite ascii_cell_store by lia.
           eapply grid_agrees_weaken.
           ++ apply (grid_agrees_store _ _ _ _ _ _ i j _ Hg'); [lia | lia | done].
           ++ intros; cbv beta in *; lia.
      * intros; cbv beta in *; lia.
  - intros; cbv beta in *; lia.
Qed.

Lemma display_labelled g0 :
  grid_agrees Ascii.zero display (String.length s + 1) (String.length t + 1)
    (λ a b, 1 ≤ a ∧ 1 ≤ b)%nat g0 →
  ∃ g,
    for_range 0 (String.length t + 1)
      (λ state j,
         a ← state;
         if decide (0 < j)%nat then
           c ← char_at (lower t) (j - 1); Some (grid_set a 0 j c)
         else Some (grid_set a 0 j "#"%char))
      (for_range 0 (String.length s + 1)
         (λ state i,
            a ← state;
            if decide (0 < i)%nat then
              c ← char_at (lower s) (i - 1); Some (grid_set a i 0 c)
            else Some (grid_set a i 0 "#"%char))
         (Some g0))
    = Some g ∧
    grid_agrees Ascii.zero display (String.length s + 1) (String.length t + 1)
      (λ _ _, True) g.
Proof.
  intros Hg0.
  assert (∃ g1,
            for_range 0 (String.length s + 1)
              (λ state i,
                 a ← state;
                 if decide (0 < i)%nat then
                   c ← char_at (lower s) (i - 1); Some (grid_set a i 0 c)
                 else Some (grid_set a i 0 "#"%char))
              (Some g0) = Some g1 ∧
            grid_agrees Ascii.zero display (String.length s + 1) (String.length t + 1)
              (λ a b, (1 ≤ a ∧ 1 ≤ b) ∨ b = 0)%nat g1) as (g1 & -> & Hg1).
  { cut (∃ g1, for_range 0 (String.length s + 1)
              (λ state i,
                 a ← state;
                 if decide (0 < i)%nat then
                   c ← char_at (lower s) (i - 1); Some (grid_set a i 0 c)
                 else Some (grid_set a i 0 "#"%char))
              (Some g0) = Some g1 ∧
            grid_agrees Ascii.zero display (String.length s + 1) (String.length t + 1)
              (λ a b, (1 ≤ a ∧ 1 ≤ b) ∨ (b = 0 ∧ a < String.length s + 1))%nat g1).
    { intros (g1 & H1 & H2). exists g1. split; [done|].
      eapply grid_agrees_weaken; [exact H2|]. intros; cbv beta in *; lia. }
    apply (for_range_ind
             (λ k state, ∃ g1, state = Some g1 ∧
                grid_agrees Ascii.zero display
                  (String.length s + 1) (String.length t + 1)
                  (λ a b, (1 ≤ a ∧ 1 ≤ b) ∨ (b = 0 ∧ a < k))%nat g1)).
    - lia.
    - exists g0. split; [done|].
      eapply grid_agrees_weaken; [exact Hg0|]. intros; cbv beta in *; lia.
    - intros k state Hk (g1 & -> & Hg1). simpl.
      destruct k as [|k].
      + eexists. split; [reflexivity|].
        eapply grid_agrees_weaken.
        * apply (grid_agrees_store _ _ _ _ _ _ 0 0 _ Hg1); [lia | lia | done].
        * intros; cbv beta in *; lia.
      + rewrite decide_True by lia. replace (S k - 1)%nat with k by lia.
        destruct (char_at_lt (lower s) k) as [c Hc]; [rewrite length_lower; lia|].
        rewrite Hc. simpl. eexists. split; [reflexivity|].
        eapply grid_agrees_weaken.
        * apply (grid_agrees_store _ _ _ _ _ _ (S k) 0 _ Hg1); [lia | lia |].
          simpl. by rewrite Hc.
        * intros; cbv beta in *; lia. }
  cut (∃ g, for_range 0 (String.length t + 1)
              (λ state j,
                 a ← state;
                 if decide (0 < j)%nat then
                   c ← char_at (lower t) (j - 1); Some (grid_set a 0 j c)
                 else Some (grid_set a 0 j "#"%char))
              (Some g1) = Some g ∧
            grid_agrees Ascii.zero display (String.length s + 1) (String.length t + 1)
              (λ a b, ((1 ≤ a ∧ 1 ≤ b) ∨ b = 0) ∨ (a = 0 ∧ b < String.length t + 1))%nat g).
  { intros (g & H1 & H2). exists g. split; [done|].
    eapply grid_agrees_weaken; [exact H2|]. intros; cbv beta in *; lia. }
  apply (for_range_ind
           (λ k state, ∃ g, state = Some g ∧
              grid_agrees Ascii.zero display
                (String.length s + 1) (String.length t + 1)
                (λ a b, ((1 ≤ a ∧ 1 ≤ b) ∨ b = 0) ∨ (a = 0 ∧ b < k))%nat g)).
  - lia.
  - exists g1. split; [done|].
    eapply grid_agrees_weaken; [exact Hg1|]. intros; cbv beta in *; lia.
  - intros k state Hk (g & -> & Hg). simpl.
    destruct k as [|k].
    + eexists. split; [reflexivity|].
      eapply grid_agrees_weaken.
      * apply (grid_agrees_store _ _ _ _ _ _ 0 0 _ Hg); [lia | lia | done].
      * intros; cbv beta in *; lia.
    + rewrite decide_True by lia. replace (S k - 1)%nat with k by lia.
      destruct (char_at_lt (lower t) k) as [c Hc]; [rewrite length_lower; lia|].
      rewrite Hc. simpl. eexists. split; [reflexivity|].
      eapply grid_agrees_weaken.
      * apply (grid_agrees_store _ _ _ _ _ _ 0 (S k) _ Hg); [lia | lia |].
        simpl. by rewrite Hc.
      * intros; cbv beta in *; lia.
Qed.

End Display.

(** [backtrace_to_ascii] returns, for every constructed engine, a grid of
    [M + 1] rows and [N + 1] columns: ['#'] in the corner, the characters
    of the lowercased target along the first row and those of the
    lowercased source down the first column, and in every interior cell
    the symbol of the tag of the backtrace matrix (['I'], ['D'], ['R'],
    ['N']); no subscript leaves its string. *)
Theorem backtrace_to_ascii_grid s t rc ic dc :
  let self := new s t rc ic dc in
  ∃ grid,
    backtrace_to_ascii self = Some grid ∧
    grid_shape grid (M self + 1) (N self + 1) ∧
    grid_get Ascii.zero grid 0 0 = "#"%char ∧
    (∀ i, (1 ≤ i ≤ M self)%nat →
       char_at (source self) (i - 1) = Some (grid_get Ascii.zero grid i 0)) ∧
    (∀ j, (1 ≤ j ≤ N self)%nat →
       char_at (target self) (j - 1) = Some (grid_get Ascii.zero grid 0 j)) ∧
    (∀ i j, (1 ≤ i ≤ M self)%nat → (1 ≤ j ≤ N self)%nat →
       grid_get Ascii.zero grid i j = tag_symbol (mget (backtrace_matrix self) i j)).
Proof.
  cbv zeta. unfold backtrace_to_ascii.
  rewrite new_M, new_N, new_source, new_target.
  destruct (display_labelled s t rc ic dc _ (display_interior s t rc ic dc))
    as (g & -> & [Hshape Hcells]).
  exists g. split; [done|]. split; [done|].
  split; [by rewrite Hcells by (done || lia)|].
  split; [|split].
  - intros i Hi. rewrite Hcells by (done || lia).
    destruct i as [|i]; [lia|]. replace (S i - 1)%nat with i by lia. simpl.
    destruct (char_at_lt (lower s) i) as [c ->]; [rewrite length_lower; lia | done].
  - intros j Hj. rewrite Hcells by (done || lia).
    destruct j as [|j]; [lia|]. replace (S j - 1)%nat with j by lia. simpl.
    destruct (char_at_lt (lower t) j) as [c ->]; [rewrite length_lower; lia | done].
  - intros i j Hi Hj. rewrite Hcells by (done || lia).
    rewrite new_backtrace by lia.
    destruct i as [|i]; [lia|]. destruct j as [|j]; [lia|]. done.
Qed.

End AsciiExtras.

(** ** Further properties of the corrector *)

Module CorrectorExtras.
Import Matrix Levenshtein SpellingCorrector Reference.
Import MatrixFacts BuildFacts EngineFacts EngineExtras CorrectorFacts.

Lemma filter_none {A : Type} (P : A → Prop) `{∀ x, Decision (P x)} (l : list A) :
  (∀ x, x ∈ l → ¬ P x) → filter P l = [].
Proof.
  induction l as [|x l IH]; intros Hl; [done|].
  rewrite filter_cons, decide_False by (apply Hl, elem_of_cons; by left).
  apply IH. intros y Hy. apply Hl, elem_of_cons. by right.
Qed.

Lemma filter_all {A : Type} (P : A → Prop) `{∀ x, Decision (P x)} (l : list A) :
  (∀ x, x ∈ l → P x) → filter P l = l.
Proof.
  induction l as [|x l IH]; intros Hl; [done|].
  rewrite filter_cons, decide_True by (apply Hl, elem_of_cons; by left).
  f_equal. apply IH. intros y Hy. apply Hl, elem_of_cons. by right.
Qed.

Section Corrector.

Context {Prob : Type}.
Variable prob_gt : Prob → Prob → bool.
Variable minus_one : Prob.
Variable probability : nat → Z → Prob.

(** When every alphabetic token, once lowercased, is in the vocabulary,
    nothing is flagged and [retrive_corrected] returns the lowercased
    tokens joined by single spaces (not the text as it was typed). *)
Theorem known_text_is_rejoined (tokens vocab : list string) (n : Z) :
  (∀ w, w ∈ map lower tokens → isalpha w = true → w ∈ vocab) →
  let self := new_corrector prob_gt minus_one probability tokens vocab n in
  misspelled_words self = [] ∧
  retrive_corrected self = Some (String.concat " " (map lower tokens)).
Proof.
  intros Hknown. cbv zeta.
  assert (misspelled_words (new_corrector prob_gt minus_one probability tokens vocab n)
          = []) as Hnil.
  { rewrite new_corrector_entries. rewrite filter_none; [done|].
    intros w Hw [Halpha Hnin]. by apply Hnin, Hknown. }
  split; [exact Hnil|].
  unfold retrive_corrected. rewrite Hnil. reflexivity.
Qed.

Lemma retrive_fold_some (entries : list (misspelled_word Prob)) :
  ∀ text,
  (∀ e, e ∈ entries → ∃ b, best_candidates e = Some b) →
  ∃ out,
    fold_left
      (λ corrected_string misspelled_word,
         s ← corrected_string;
         best ← best_candidates misspelled_word;
         Some (replace s (misspelled misspelled_word) best))
      entries (Some text)
    = Some out.
Proof.
  induction entries as [|e entries IH]; intros text Hall; simpl; [eauto|].
  destruct (Hall e) as [b ->]; [apply elem_of_cons; by left|]. simpl.
  apply IH. intros e' He'. apply Hall, elem_of_cons. by right.
Qed.

(** After the construction of a corrector every entry carries the key
    ["best_candidates"], so that [retrive_corrected] returns a string and
    never fails on a missing key, whatever the text, the vocabulary and
    the threshold are. *)
Theorem retrive_corrected_returns (tokens vocab : list string) (n : Z) :
  let self := new_corrector prob_gt minus_one probability tokens vocab n in
  (∀ e, e ∈ misspelled_words self → ∃ b, best_candidates e = Some b) ∧
  ∃ out, retrive_corrected self = Some out.
Proof.
  cbv zeta.
  assert (∀ e, e ∈ misspelled_words
                     (new_corrector prob_gt minus_one probability tokens vocab n) →
               ∃ b, best_candidates e = Some b) as Hall.
  { rewrite new_corrector_entries. intros e He.
    apply list_elem_of_In, in_map_iff in He as (w & <- & _). simpl. eauto. }
  split; [exact Hall|].
  unfold retrive_corrected. by apply retrive_fold_some.
Qed.

(** A negative threshold admits no candidate: every flagged token has an
    empty candidate list and the empty string as best candidate. *)
Theorem negative_threshold_no_candidates (tokens vocab : list string) (n : Z)
    (i : nat) (entry : misspelled_word Prob) :
  n < 0 →
  misspelled_words (new_corrector prob_gt minus_one probability tokens vocab n) !! i
    = Some entry →
  candidates entry = [] ∧ probabilities entry = [] ∧
  best_candidates entry = Some EmptyString.
Proof.
  intros Hn. rewrite new_corrector_entries, lookup_map.
  destruct (filter (flagged vocab) (map lower tokens) !! i) as [w|]; [|discriminate].
  intros H. injection H as <-. cbv zeta. simpl.
  rewrite filter_none; [done|].
  intros x _. unfold within, get_edit_distance. rewrite new_M, new_N.
  pose proof (new_distance_range w x 2 1 1 (String.length w) (String.length x)
                (le_n _) (le_n _)). lia.
Qed.

(** A threshold of 255 or more admits every word, the distance being an
    8-bit value: the candidate list of every flagged token is the whole
    vocabulary. *)
Theorem large_threshold_all_candidates (tokens vocab : list string) (n : Z)
    (i : nat) (entry : misspelled_word Prob) :
  255 ≤ n →
  misspelled_words (new_corrector prob_gt minus_one probability tokens vocab n) !! i
    = Some entry →
  candidates entry = vocab.
Proof.
  intros Hn. rewrite new_corrector_entries, lookup_map.
  destruct (filter (flagged vocab) (map lower tokens) !! i) as [w|]; [|discriminate].
  intros H. injection H as <-. cbv zeta. simpl.
  apply filter_all.
  intros x _. unfold within, get_edit_distance. rewrite new_M, new_N.
  pose proof (new_distance_range w x 2 1 1 (String.length w) (String.length x)
                (le_n _) (le_n _)). lia.
Qed.

(** The length of a candidate differs from the length of its token by at
    most the threshold (for a token and a word whose lengths add up to at
    most 255, where the distance does not wrap). *)
Theorem candidate_length_is_close (tokens vocab : list string) (n : Z)
    (i : nat) (entry : misspelled_word Prob) (w : string) :
  misspelled_words (new_corrector prob_gt minus_one probability tokens vocab n) !! i
    = Some entry →
  w ∈ candidates entry →
  (String.length (misspelled entry) + String.length w ≤ 255)%nat →
  Z.abs (Z.of_nat (String.length (misspelled entry)) - Z.of_nat (String.length w)) ≤ n.
Proof.
  rewrite new_corrector_entries, lookup_map.
  destruct (filter (flagged vocab) (map lower tokens) !! i) as [tok|]; [|discriminate].
  intros H. injection H as <-. cbv zeta. simpl.
  intros Hw Hlen. apply list_elem_of_filter in Hw as [Hwithin _].
  unfold within, get_edit_distance in Hwithin. rewrite new_M, new_N in Hwithin.
  rewrite new_distance in Hwithin by done.
  pose proof (cell_bounds (lower tok) (lower w) 2 (String.length tok)
                ltac:(lia) (String.length w) Hlen). lia.
Qed.

Lemma select_best_is_candidate (cs : list string) :
  ∀ (ps : list Prob) bp bc,
  snd (fold_left
         (λ best cp,
            if prob_gt (snd cp) (fst best) then (snd cp, fst cp) else best)
         (combine cs ps) (bp, bc)) = bc
  ∨ snd (fold_left
           (λ best cp,
              if prob_gt (snd cp) (fst best) then (snd cp, fst cp) else best)
           (combine cs ps) (bp, bc)) ∈ cs.
Proof.
  induction cs as [|c cs IH]; intros ps bp bc; [by left|].
  destruct ps as [|p ps]; [by left|]. simpl.
  destruct (prob_gt p bp).
  - destruct (IH ps p c) as [-> | Hin].
    + right. apply elem_of_cons. by left.
    + right. apply elem_of_cons. by right.
  - destruct (IH ps bp bc) as [-> | Hin]; [by left|].
    right. apply elem_of_cons. by right.
Qed.

(** Whatever the probabilities and their comparison are, the best
    candidate of an entry is the empty string or a word of the vocabulary
    whose distance from the token, at replacement cost 2, is within the
    threshold. *)
Theorem best_candidate_is_close_word (tokens vocab : list string) (n : Z)
    (i : nat) (entry : misspelled_word Prob) :
  misspelled_words (new_corrector prob_gt minus_one probability tokens vocab n) !! i
    = Some entry →
  ∃ best,
    best_candidates entry = Some best ∧
    (best = EmptyString ∨
     (best ∈ candidates entry ∧ best ∈ vocab ∧
      get_edit_distance (new (misspelled entry) best 2 1 1) ≤ n)).
Proof.
  rewrite new_corrector_entries, lookup_map.
  destruct (filter (flagged vocab) (map lower tokens) !! i) as [tok|]; [|discriminate].
  intros H. injection H as <-. cbv zeta. simpl.
  eexists. split; [reflexivity|]. unfold select_best.
  destruct (select_best_is_candidate (filter (within n tok) vocab)
              (map (λ c, probability (count_occ_str vocab c)
                           (get_edit_distance (new tok c n 1 1)))
                   (filter (within n tok) vocab))
              minus_one EmptyString) as [-> | Hin]; [by left|].
  right. split; [exact Hin|].
  apply list_elem_of_filter in Hin as [Hwithin Hvocab]. by split.
Qed.

(** The probability stored for a candidate is computed from the number
    of times the candidate occurs in the vocabulary, which is at least 1,
    and from its distance from the token measured with the threshold
    [n_edit] as replacement cost, an 8-bit value (so that [distance + 1]
    is never 0). *)
Theorem probability_of_candidate (tokens vocab : list string) (n : Z)
    (i : nat) (entry : misspelled_word Prob) (k : nat) (c : string) :
  misspelled_words (new_corrector prob_gt minus_one probability tokens vocab n) !! i
    = Some entry →
  candidates entry !! k = Some c →
  let f := count_occ_str vocab c in
  let d := get_edit_distance (new (misspelled entry) c n 1 1) in
  probabilities entry !! k = Some (probability f d) ∧ (1 ≤ f)%nat ∧ 0 ≤ d < 256.
Proof.
  rewrite new_corrector_entries, lookup_map.
  destruct (filter (flagged vocab) (map lower tokens) !! i) as [tok|]; [|discriminate].
  intros H. injection H as <-. cbv zeta. simpl. intros Hc.
  split; [by rewrite lookup_map, Hc|]. split.
  - apply count_occ_str_pos.
    apply list_elem_of_lookup_2 in Hc. by apply list_elem_of_filter in Hc as [_ Hc].
  - unfold get_edit_distance. rewrite new_M, new_N. by apply new_distance_range.
Qed.

End Corrector.

Lemma probability_of_candidate_witness :
  ∃ entry,
    misspelled_words
      (new_corrector exact_gt exact_minus_one exact_probability
         ["strongss"] ["strong"; "banks"; "strong"] 2) !! 0%nat = Some entry ∧
    let f := count_occ_str ["strong"; "banks"; "strong"] "strong" in
    let d := get_edit_distance (new (misspelled entry) "strong" 2 1 1) in
    probabilities entry !! 0%nat = Some (exact_probability f d) ∧
    (1 ≤ f)%nat ∧ 0 ≤ d < 256.
Proof.
  eexists. split; [vm_compute; reflexivity|].
  apply (probability_of_candidate exact_gt exact_minus_one exact_probability
           ["strongss"] ["strong"; "banks"; "strong"] 2 0 _ 0 "strong").
  - vm_compute. reflexivity.
  - vm_compute. reflexivity.
Defined.

Lemma known_text_is_rejoined_witness :
  let self :=
    new_corrector exact_gt exact_minus_one exact_probability
      ["Strong"; "banks"; "42"] ["strong"; "banks"] 2 in
  misspelled_words self = [] ∧
  retrive_corrected self
    = Some (String.concat " " (map lower ["Strong"; "banks"; "42"])).
Proof.
  apply (known_text_is_rejoined exact_gt exact_minus_one exact_probability
           ["Strong"; "banks"; "42"] ["strong"; "banks"] 2).
  intros w Hw Halpha. simpl in Hw.
  apply elem_of_cons in Hw as [->|Hw]; [apply elem_of_cons; by left|].
  apply elem_of_cons in Hw as [->|Hw];
    [apply elem_of_cons; right; apply elem_of_cons; by left|].
  apply elem_of_cons in Hw as [->|Hw]; [discriminate Halpha|].
  by apply elem_of_nil in Hw.
Defined.

Lemma negative_threshold_no_candidates_witness :
  ∃ entry,
    misspelled_words
      (new_corrector exact_gt exact_minus_one exact_probability
         ["strongss"] ["strong"; "banks"] (-1)) !! 0%nat = Some entry ∧
    candidates entry = [] ∧ probabilities entry = [] ∧
    best_candidates entry = Some EmptyString.
Proof.
  eexists. split; [vm_compute; reflexivity|].
  apply (negative_threshold_no_candidates exact_gt exact_minus_one exact_probability
           ["strongss"] ["strong"; "banks"] (-1) 0).
  - lia.
  - vm_compute. reflexivity.
Defined.

Lemma large_threshold_all_candidates_witness :
  ∃ entry,
    misspelled_words
      (new_corrector exact_gt exact_minus_one exact_probability
         ["qq"] ["strong"; "banks"] 255) !! 0%nat = Some entry ∧
    candidates entry = ["strong"; "banks"].
Proof.
  eexists. split; [vm_compute; reflexivity|].
  apply (large_threshold_all_candidates exact_gt exact_minus_one exact_probability
           ["qq"] ["strong"; "banks"] 255 0).
  - lia.
  - vm_compute. reflexivity.
Defined.

Lemma candidate_length_is_close_witness :
  ∃ entry,
    misspelled_words
      (new_corrector exact_gt exact_minus_one exact_probability
         ["strongss"] ["strong"; "banks"] 2) !! 0%nat = Some entry ∧
    Z.abs (Z.of_nat (String.length (misspelled entry))
           - Z.of_nat (String.length "strong")) ≤ 2.
Proof.
  eexists. split; [vm_compute; reflexivity|].
  apply (candidate_length_is_close exact_gt exact_minus_one exact_probability
           ["strongss"] ["strong"; "banks"] 2 0).
  - vm_compute. reflexivity.
  - simpl. apply elem_of_cons. by left.
  - simpl. lia.
Defined.

Lemma best_candidate_is_close_word_witness :
  ∃ entry,
    misspelled_words
      (new_corrector exact_gt exact_minus_one exact_probability
         ["strongss"] ["strong"; "banks"] 2) !! 0%nat = Some entry ∧
    ∃ best,
      best_candidates entry = Some best ∧
      (best = EmptyString ∨
       (best ∈ candidates entry ∧ best ∈ ["strong"; "banks"] ∧
        get_edit_distance (new (misspelled entry) best 2 1 1) ≤ 2)).
Proof.
  eexists. split; [vm_compute; reflexivity|].
  apply (best_candidate_is_close_word exact_gt exact_minus_one exact_probability
           ["strongss"] ["strong"; "banks"] 2 0).
  vm_compute. reflexivity.
Defined.

End CorrectorExtras.
